(** * The mixin aggregator [web/server/vue-cli/src/mixins/index.js]

    The module imports the default export of four mixin modules and
    re-exports the four bindings under their own names.  This file embeds

    - the text of the module, a lexer and a parser for the fragment of the
      ECMAScript module grammar the file is written in, and the module
      record (import entries, export entries, statements) they produce;
    - a loader for module records: a module map, a host registry that maps
      a module specifier to a module, linking of import entries, evaluation
      of the module body and construction of the export table;

    and states the properties of the aggregator over that loader. *)

From Stdlib Require Import Ascii.
From stdpp Require Import base option list strings gmap.

(** ** Module records *)

(** An import entry, [import <local_name> from '<module_request>'] when
    [import_name] is ["default"], and
    [import { <import_name> as <local_name> } from '<module_request>']
    otherwise. *)
Record import_entry := ImportEntry {
  module_request : string;
  import_name : string;
  local_name : string
}.

(** A local export entry, [export { <export_local> as <export_name> }];
    [export { x }] is [export { x as x }]. *)
Record export_entry := ExportEntry {
  export_name : string;
  export_local : string
}.

(** A module: its import entries, its local export entries and the
    statements of its body, each list in source order.  The statement
    language is a parameter. *)
Record module (Stmt : Type) := Module_ {
  import_entries : list import_entry;
  export_entries : list export_entry;
  body : list Stmt
}.
Arguments Module_ {Stmt} _ _ _.
Arguments import_entries {Stmt} _.
Arguments export_entries {Stmt} _.
Arguments body {Stmt} _.

#[global] Instance import_entry_eq_dec : EqDecision import_entry.
Proof. solve_decision. Defined.
#[global] Instance export_entry_eq_dec : EqDecision export_entry.
Proof. solve_decision. Defined.

(** ** The source text *)

Module IndexJs.

(** The text of [index.js], byte for byte; the file does not end with a
    line terminator. *)
Definition source : string :=
"import DetectionStatusMixin from './detection-status.mixin';
import BugPathLengthColorMixin from './bug-path-length-color.mixin';
import SeverityMixin from './severity.mixin';
import StrToColorMixin from './str-to-color.mixin';

export {
  BugPathLengthColorMixin,
  DetectionStatusMixin,
  SeverityMixin,
  StrToColorMixin
}".

(** The module record of [index.js], read off the text: four default
    imports, no statement, one export list of four names. *)
Definition index_js {Stmt : Type} : module Stmt :=
  {| import_entries :=
       [ ImportEntry "./detection-status.mixin" "default" "DetectionStatusMixin";
         ImportEntry "./bug-path-length-color.mixin" "default" "BugPathLengthColorMixin";
         ImportEntry "./severity.mixin" "default" "SeverityMixin";
         ImportEntry "./str-to-color.mixin" "default" "StrToColorMixin" ];
     export_entries :=
       [ ExportEntry "BugPathLengthColorMixin" "BugPathLengthColorMixin";
         ExportEntry "DetectionStatusMixin" "DetectionStatusMixin";
         ExportEntry "SeverityMixin" "SeverityMixin";
         ExportEntry "StrToColorMixin" "StrToColorMixin" ];
     body := [] |}.

End IndexJs.

(** ** Lines, tokens and the parser *)

Module Js.

Definition LF : ascii := Ascii.ascii_of_nat 10.

(** The lines of a text: the segments between line feeds.  A text with
    [n] line feeds has [n + 1] lines, the last one possibly empty. *)
Fixpoint lines_from (cur : string) (s : string) : list string :=
  match s with
  | EmptyString => [cur]
  | String c rest =>
      if Ascii.eqb c LF then cur :: lines_from "" rest
      else lines_from (cur +:+ String c "") rest
  end.

Definition lines (s : string) : list string := lines_from "" s.

Fixpoint count_char (c : ascii) (s : string) : nat :=
  match s with
  | EmptyString => 0
  | String d rest => (if Ascii.eqb c d then 1 else 0) + count_char c rest
  end.

Inductive token :=
  | TImport | TExport | TFrom | TAs
  | TIdent (x : string)
  | TString (s : string)
  | TLBrace | TRBrace | TComma | TSemi.

#[global] Instance token_eq_dec : EqDecision token.
Proof. solve_decision. Defined.

Definition between (lo hi : nat) (c : ascii) : bool :=
  (lo <=? nat_of_ascii c)%nat && (nat_of_ascii c <=? hi)%nat.

Definition is_ident_char (c : ascii) : bool :=
  between 97 122 c || between 65 90 c || between 48 57 c
  || Ascii.eqb c "_" || Ascii.eqb c "$".

Definition is_blank (c : ascii) : bool :=
  Ascii.eqb c " " || Ascii.eqb c LF || Ascii.eqb c "009" || Ascii.eqb c "013".

Definition word_token (w : string) : token :=
  if String.eqb w "import" then TImport
  else if String.eqb w "export" then TExport
  else if String.eqb w "from" then TFrom
  else if String.eqb w "as" then TAs
  else TIdent w.

Definition punctuator (c : ascii) : option token :=
  if Ascii.eqb c "{" then Some TLBrace
  else if Ascii.eqb c "}" then Some TRBrace
  else if Ascii.eqb c "," then Some TComma
  else if Ascii.eqb c ";" then Some TSemi
  else None.

(** What the lexer is in the middle of: nothing, a word, or a
    single-quoted string literal. *)
Inductive lex_mode :=
  | Idle
  | InWord (acc : string)
  | InString (acc : string).

Definition flush (mode : lex_mode) : option (list token) :=
  match mode with
  | Idle => Some []
  | InWord w => Some [word_token w]
  | InString _ => None
  end.

Definition word_so_far (mode : lex_mode) : string :=
  match mode with InWord w => w | _ => "" end.

Fixpoint lex (mode : lex_mode) (s : string) : option (list token) :=
  match s with
  | EmptyString => flush mode
  | String c rest =>
      match mode with
      | InString acc =>
          if Ascii.eqb c "'" then (TString acc ::.) <$> lex Idle rest
          else lex (InString (acc +:+ String c "")) rest
      | _ =>
          if is_ident_char c then
            lex (InWord (word_so_far mode +:+ String c "")) rest
          else
            pre ← flush mode;
            if is_blank c then (pre ++.) <$> lex Idle rest
            else if Ascii.eqb c "'" then (pre ++.) <$> lex (InString "") rest
            else
              t ← punctuator c;
              (λ ts, pre ++ t :: ts) <$> lex Idle rest
      end
  end.

Definition tokens (s : string) : option (list token) := lex Idle s.

(** The specifiers of an export list, up to and including the closing
    brace; returns the entries and the tokens that follow. *)
Fixpoint parse_export_specifiers (ts : list token)
  : option (list export_entry * list token) :=
  match ts with
  | TRBrace :: rest => Some ([], rest)
  | TIdent x :: TRBrace :: rest => Some ([ExportEntry x x], rest)
  | TIdent x :: TComma :: rest =>
      '(es, r) ← parse_export_specifiers rest;
      Some (ExportEntry x x :: es, r)
  | TIdent x :: TAs :: TIdent y :: TRBrace :: rest =>
      Some ([ExportEntry y x], rest)
  | TIdent x :: TAs :: TIdent y :: TComma :: rest =>
      '(es, r) ← parse_export_specifiers rest;
      Some (ExportEntry y x :: es, r)
  | _ => None
  end.

(** The module items: default imports, export lists and empty
    statements.  Anything else is rejected. *)
Fixpoint parse_items {Stmt : Type} (fuel : nat) (ts : list token)
    (m : module Stmt) : option (module Stmt) :=
  match ts with
  | [] => Some m
  | _ =>
    match fuel with
    | 0 => None
    | S fuel =>
      match ts with
      | TSemi :: rest => parse_items fuel rest m
      | TImport :: TIdent x :: TFrom :: TString s :: rest =>
          parse_items fuel rest
            (Module_ (import_entries m ++ [ImportEntry s "default" x])
                     (export_entries m) (body m))
      | TExport :: TLBrace :: rest =>
          '(es, r) ← parse_export_specifiers rest;
          parse_items fuel r
            (Module_ (import_entries m) (export_entries m ++ es) (body m))
      | _ => None
      end
    end
  end.

Definition parse {Stmt : Type} (s : string) : option (module Stmt) :=
  ts ← tokens s;
  parse_items (length ts) ts (Module_ [] [] []).

End Js.

(** ** The loader

    The loader follows the life of a module in an ECMAScript host, for
    module graphs without cycles and module bodies that do not throw:

    - the host finds a module by the specifier written in the import
      declaration; the module map is keyed by that specifier, and a
      module that is in it is never loaded again;
    - an import declaration loads the requested module, then resolves the
      imported name in its export table; a module that cannot be located
      and a name that is not exported are errors;
    - a load that fails has evaluated nothing: the error comes without a
      state, and the caller stays in the state it was in;
    - the export table of a module binds each export name to the
      reference that the local name holds; an import and the export it
      comes from hold the same reference. *)

(** A value is a reference to an object; two values are the same object
    exactly when the references are equal. *)
Definition reference := positive.

(** An export table (module namespace), and also a module environment:
    names bound to references. *)
Abbreviation namespace := (gmap string reference).

Inductive load_error :=
  | ModuleNotFound (spec : string)
  | ExportNotFound (spec name : string)
  | UnboundExport (name : string)
  | DuplicateExport (name : string)
  | OutOfFuel.

#[global] Instance load_error_eq_dec : EqDecision load_error.
Proof. solve_decision. Defined.

(** The failures of symbol resolution: a requested module that the host
    cannot locate, and a requested name that the module does not export. *)
Definition resolution_error (e : load_error) : Prop :=
  match e with
  | ModuleNotFound _ | ExportNotFound _ _ => True
  | _ => False
  end.

Section Loader.
Context {World Stmt : Type}.

(** What the host finds for a specifier: a module whose record is at
    hand, or a module outside the fragment, known by its export table
    and by what its initialisation does to the world. *)
Inductive module_source :=
  | External (ns : namespace) (init : World → World)
  | Source (m : module Stmt).

(** The state of the process: the module map (the export tables of the
    modules loaded so far) and everything else. *)
Record loader_state := LoaderState {
  module_map : gmap string namespace;
  world : World
}.

(** Loading either fails, and then nothing has been evaluated, or
    returns a value and the next state. *)
Definition loader (A : Type) : Type :=
  loader_state → load_error + A * loader_state.

Definition ret {A} (a : A) : loader A := λ st, inr (a, st).
Definition fail {A} (e : load_error) : loader A := λ _, inl e.
Definition bind {A B} (m : loader A) (k : A → loader B) : loader B :=
  λ st, match m st with
        | inl e => inl e
        | inr (a, st') => k a st'
        end.

Notation "x <- m ;; k" := (bind m (λ x, k))
  (at level 100, m at next level, right associativity).

(** The semantics of a statement: it may bind names in the module
    environment and act on the world. *)
Variable exec : Stmt → namespace → World → namespace * World.

(** The host: module specifier to module. *)
Variable registry : gmap string module_source.

(** One import entry: load the requested module, look the imported name
    up in its export table, bind the local name to what is found. *)
Definition resolve_import (load : string → loader namespace)
    (ie : import_entry) (env : namespace) : loader namespace :=
  ns <- load (module_request ie) ;;
  match ns !! import_name ie with
  | Some r => ret (<[local_name ie := r]> env)
  | None => fail (ExportNotFound (module_request ie) (import_name ie))
  end.

Fixpoint link_imports (load : string → loader namespace)
    (ies : list import_entry) (env : namespace) : loader namespace :=
  match ies with
  | [] => ret env
  | ie :: ies =>
      env' <- resolve_import load ie env ;;
      link_imports load ies env'
  end.

Fixpoint run_body (stmts : list Stmt) (env : namespace) : loader namespace :=
  match stmts with
  | [] => ret env
  | s :: stmts =>
      λ st, let '(env', w) := exec s env (world st) in
            run_body stmts env' (LoaderState (module_map st) w)
  end.

(** The export table: each export entry, in order, binds its export
    name to the reference its local name holds in the environment. *)
Fixpoint build_exports (ees : list export_entry) (env table : namespace)
  : load_error + namespace :=
  match ees with
  | [] => inr table
  | ee :: ees =>
      match env !! export_local ee with
      | None => inl (UnboundExport (export_local ee))
      | Some r =>
          match table !! export_name ee with
          | Some _ => inl (DuplicateExport (export_name ee))
          | None => build_exports ees env (<[export_name ee := r]> table)
          end
      end
  end.

Definition lift {A} (r : load_error + A) : loader A :=
  λ st, match r with inl e => inl e | inr a => inr (a, st) end.

Definition register (spec : string) (ns : namespace) : loader namespace :=
  λ st, inr (ns, LoaderState (<[spec := ns]> (module_map st)) (world st)).

(** [import_module fuel spec]: the export table of the module [spec].
    A module that is in the module map is not loaded again.  [fuel]
    bounds the depth of the chain of imports that is followed. *)
Fixpoint import_module (fuel : nat) (spec : string) : loader namespace :=
  λ st,
  match module_map st !! spec with
  | Some ns => inr (ns, st)
  | None =>
      match registry !! spec with
      | None => inl (ModuleNotFound spec)
      | Some (External ns init) =>
          inr (ns, LoaderState (<[spec := ns]> (module_map st))
                               (init (world st)))
      | Some (Source m) =>
          match fuel with
          | 0 => inl OutOfFuel
          | S fuel' =>
              (env <- link_imports (import_module fuel') (import_entries m) ∅ ;;
               env' <- run_body (body m) env ;;
               ns <- lift (build_exports (export_entries m) env' ∅) ;;
               register spec ns) st
          end
      end
  end.

(** Importing a list of modules one after the other. *)
Fixpoint import_all (load : string → loader namespace)
    (specs : list string) : loader (list namespace) :=
  match specs with
  | [] => ret []
  | s :: specs =>
      ns <- load s ;;
      nss <- import_all load specs ;;
      ret (ns :: nss)
  end.

(** What a consumer does with a loaded process: it imports a module
    again, or imports a name from a module. *)
Inductive operation :=
  | OpImport (fuel : nat) (spec : string)
  | OpResolve (fuel : nat) (ie : import_entry).

Definition step (op : operation) (st : loader_state) : loader_state :=
  match op with
  | OpImport fuel spec =>
      match import_module fuel spec st with
      | inr (_, st') => st'
      | inl _ => st
      end
  | OpResolve fuel ie =>
      match resolve_import (import_module fuel) ie ∅ st with
      | inr (_, st') => st'
      | inl _ => st
      end
  end.

Definition run (ops : list operation) (st : loader_state) : loader_state :=
  foldl (λ st op, step op st) st ops.

End Loader.

Arguments module_source : clear implicits.
Arguments loader_state : clear implicits.
Arguments loader : clear implicits.

(** ** What the aggregator is expected to export *)

(** The four public names. *)
Definition mixin_names : list string :=
  [ "BugPathLengthColorMixin"; "DetectionStatusMixin";
    "SeverityMixin"; "StrToColorMixin" ].

(** Each public name with the module that defines the mixin. *)
Definition underlying : list (string * string) :=
  [ ("BugPathLengthColorMixin", "./bug-path-length-color.mixin");
    ("DetectionStatusMixin", "./detection-status.mixin");
    ("SeverityMixin", "./severity.mixin");
    ("StrToColorMixin", "./str-to-color.mixin") ].

(** The modules the aggregator requests, in the order of its import
    declarations. *)
Definition mixin_requests : list string :=
  [ "./detection-status.mixin"; "./bug-path-length-color.mixin";
    "./severity.mixin"; "./str-to-color.mixin" ].

(** [spec] cannot be located: it is not in the module map and the host
    has no module for it. *)
Definition unlocated {World Stmt : Type}
    (registry : gmap string (module_source World Stmt))
    (st : loader_state World) (spec : string) : Prop :=
  registry !! spec = None ∧ module_map st !! spec = None.

(** [spec] is at hand and has a default export: it is in the module map,
    or the host has it as a module outside the fragment. *)
Definition available {World Stmt : Type}
    (registry : gmap string (module_source World Stmt))
    (st : loader_state World) (spec : string) : Prop :=
  ∃ ns, is_Some (ns !! "default") ∧
        (module_map st !! spec = Some ns ∨
         (module_map st !! spec = None ∧
          ∃ init, registry !! spec = Some (External ns init))).

(** The export table the host has for [spec] without following any
    import: the one in the module map, or the one of a module outside the
    fragment. *)
Definition provided {World Stmt : Type}
    (registry : gmap string (module_source World Stmt))
    (st : loader_state World) (spec : string) : option namespace :=
  match module_map st !! spec with
  | Some ns => Some ns
  | None =>
      match registry !! spec with
      | Some (External ns _) => Some ns
      | _ => None
      end
  end.

(** What importing [spec] still does to the world: nothing when it is in
    the module map, its initialisation when it is a module outside the
    fragment that has not been loaded. *)
Definition pending_init {World Stmt : Type}
    (registry : gmap string (module_source World Stmt))
    (st : loader_state World) (spec : string) : World → World :=
  match module_map st !! spec with
  | Some _ => id
  | None =>
      match registry !! spec with
      | Some (External _ init) => init
      | _ => id
      end
  end.

(** [spec] is at hand but has no default export. *)
Definition lacks_default {World Stmt : Type}
    (registry : gmap string (module_source World Stmt))
    (st : loader_state World) (spec : string) : Prop :=
  ∃ ns, provided registry st spec = Some ns ∧ ns !! "default" = None.


(** The export table of the aggregator, given the references of the four
    mixins: the entries of the export list, inserted in source order. *)
Definition export_table (rb rd rs rc : reference) : namespace :=
  <["StrToColorMixin" := rc]>
    (<["SeverityMixin" := rs]>
       (<["DetectionStatusMixin" := rd]>
          (<["BugPathLengthColorMixin" := rb]> ∅))).

(** ** A concrete process

    A host with the four mixin modules, the aggregator and one consumer;
    the world is the log of what has been initialised. *)

Module Demo.

Inductive stmt := Log (msg : string).

Definition exec (s : stmt) (env : namespace) (w : list string)
  : namespace * list string :=
  match s with Log msg => (env, w ++ [msg]) end.

Definition agg : string := "@/mixins".

Definition mixin_module (r : reference) (tag : string)
  : module_source (list string) stmt :=
  External {[ "default" := r ]} (λ w, w ++ [tag]).

(** A consumer: [import { SeverityMixin } from '@/mixins'], one
    statement, no export. *)
Definition consumer : module stmt :=
  {| import_entries := [ImportEntry agg "SeverityMixin" "SeverityMixin"];
     export_entries := [];
     body := [Log "consumer"] |}.

Definition registry : gmap string (module_source (list string) stmt) :=
  <[ agg := Source IndexJs.index_js ]>
  (<[ "@/views/report" := Source consumer ]>
  (<[ "./detection-status.mixin" := mixin_module 11%positive "detection-status" ]>
  (<[ "./bug-path-length-color.mixin" := mixin_module 12%positive "bug-path-length-color" ]>
  (<[ "./severity.mixin" := mixin_module 13%positive "severity" ]>
  (<[ "./str-to-color.mixin" := mixin_module 14%positive "str-to-color" ]> ∅))))).

(** The same host without the severity mixin. *)
Definition broken_registry : gmap string (module_source (list string) stmt) :=
  delete "./severity.mixin" registry.

Definition st0 : loader_state (list string) := LoaderState ∅ [].

(** The export table and the state that the first import of the
    aggregator produces from [st0]. *)
Definition ns : namespace := export_table 12%positive 11%positive 13%positive 14%positive.

Definition st1 : loader_state (list string) :=
  LoaderState
    (<[ agg := ns ]>
     (<[ "./detection-status.mixin" := {[ "default" := 11%positive ]} ]>
     (<[ "./bug-path-length-color.mixin" := {[ "default" := 12%positive ]} ]>
     (<[ "./severity.mixin" := {[ "default" := 13%positive ]} ]>
     (<[ "./str-to-color.mixin" := {[ "default" := 14%positive ]} ]> ∅)))))
    ["detection-status"; "bug-path-length-color"; "severity"; "str-to-color"].

End Demo.

(** Hosts for the edge cases: a severity module that exports a helper
    but no default, and a process in which a consumer has already loaded
    the severity mixin on its own. *)
Module DemoEdge.

Definition defaultless_registry
  : gmap string (module_source (list string) Demo.stmt) :=
  <[ "./severity.mixin" :=
       External {[ "helper" := 13%positive ]} (λ w, w ++ ["severity"]) ]>
    Demo.registry.

Definition st_severity_loaded : loader_state (list string) :=
  LoaderState {[ "./severity.mixin" := {[ "default" := 13%positive ]} ]}
              ["severity"].

(** The state the first import of the aggregator produces from
    [st_severity_loaded]. *)
Definition st_after : loader_state (list string) :=
  LoaderState (module_map Demo.st1)
    ["severity"; "detection-status"; "bug-path-length-color"; "str-to-color"].

End DemoEdge.

(** ** The text and the module record *)

Example source_tokens_head :
  take 5 <$> Js.tokens IndexJs.source =
  Some [Js.TImport; Js.TIdent "DetectionStatusMixin"; Js.TFrom;
        Js.TString "./detection-status.mixin"; Js.TSemi].
Proof. vm_compute. reflexivity. Qed.

(** The module record is what the parser reads in the text. *)
Lemma parse_source (Stmt : Type) :
  Js.parse IndexJs.source = Some (@IndexJs.index_js Stmt).
Proof. vm_compute. reflexivity. Qed.

Example source_line_count : length (Js.lines IndexJs.source) = 11.
Proof. vm_compute. reflexivity. Qed.

Example source_line_feeds : Js.count_char Js.LF IndexJs.source = 10.
Proof. vm_compute. reflexivity. Qed.

(** The text does not have twelve lines: it has ten line feeds and no
    line terminator at the end, which makes eleven lines. *)
Lemma index_js_not_twelve_lines :
  ¬ (length (Js.lines IndexJs.source) = 12).
Proof. vm_compute. discriminate. Qed.

(** C9 (amended).  The fragment is a single module of eleven lines whose
    only behaviour is to import four mixin definitions and to re-export
    them as a named group: the text has eleven lines; it parses to the
    module record [index_js], which has four import entries, each a
    default import, no statement, and four export entries whose local
    names are the four imported names. *)
Theorem index_js_eleven_line_reexport (Stmt : Type) :
  length (Js.lines IndexJs.source) = 11 ∧
  Js.parse IndexJs.source = Some (@IndexJs.index_js Stmt) ∧
  length (import_entries (@IndexJs.index_js Stmt)) = 4 ∧
  Forall (λ ie, import_name ie = "default")
         (import_entries (@IndexJs.index_js Stmt)) ∧
  body (@IndexJs.index_js Stmt) = [] ∧
  length (export_entries (@IndexJs.index_js Stmt)) = 4 ∧
  export_local <$> export_entries (@IndexJs.index_js Stmt)
    ≡ₚ local_name <$> import_entries (@IndexJs.index_js Stmt).
Proof.
  split; [vm_compute; reflexivity|].
  split; [apply parse_source|].
  split; [reflexivity|].
  split; [repeat constructor|].
  split; [reflexivity|].
  split; [reflexivity|].
  cbn. apply perm_swap.
Qed.

(** ** General facts about the loader *)

Section LoaderFacts.
Context {World Stmt : Type}.
Variable exec : Stmt → namespace → World → namespace * World.
Variable registry : gmap string (module_source World Stmt).

Implicit Types (st : loader_state World) (ns env : namespace)
  (load : string → loader World namespace).

Lemma bind_inr {A B} (m : loader World A) (k : A → loader World B) st b st' :
  bind m k st = inr (b, st') ↔
  ∃ a st1, m st = inr (a, st1) ∧ k a st1 = inr (b, st').
Proof.
  unfold bind. destruct (m st) as [e|[a st1]]; split.
  - discriminate.
  - intros (a & st1 & [=] & _).
  - eauto.
  - intros (a' & st1' & [= <- <-] & Hk). exact Hk.
Qed.

Lemma bind_inl {A B} (m : loader World A) (k : A → loader World B) st e :
  m st = inl e → bind m k st = inl e.
Proof. unfold bind. intros ->. reflexivity. Qed.

Lemma resolve_import_inr load ie env st env' st' :
  resolve_import load ie env st = inr (env', st') ↔
  ∃ ns r, load (module_request ie) st = inr (ns, st') ∧
          ns !! import_name ie = Some r ∧
          env' = <[local_name ie := r]> env.
Proof.
  unfold resolve_import. rewrite bind_inr. split.
  - intros (ns & st1 & Hload & Hk).
    destruct (ns !! import_name ie) as [r|] eqn:Hr; [|discriminate].
    injection Hk as <- <-. eauto.
  - intros (ns & r & Hload & Hr & ->).
    exists ns, st'. rewrite Hr. eauto.
Qed.

(** An invariant of the state that every load keeps is kept by the
    linking of a list of import entries. *)
Lemma link_imports_inv (I : loader_state World → Prop) load :
  (∀ s st ns st', I st → load s st = inr (ns, st') → I st') →
  ∀ ies env st env' st',
    I st → link_imports load ies env st = inr (env', st') → I st'.
Proof.
  intros Hload ies. induction ies as [|ie ies IH]; intros env st env' st' HI.
  - intros [= _ <-]. exact HI.
  - cbn [link_imports]. rewrite bind_inr.
    intros (env1 & st1 & Hres & Hrest).
    apply resolve_import_inr in Hres as (ns & r & Hl & _ & _).
    eapply IH; [|exact Hrest]. eapply Hload; eauto.
Qed.

Lemma run_body_module_map stmts env st env' st' :
  run_body exec stmts env st = inr (env', st') →
  module_map st' = module_map st.
Proof.
  revert env st. induction stmts as [|s stmts IH]; intros env st.
  - intros [= _ <-]. reflexivity.
  - cbn [run_body]. destruct (exec s env (world st)) as [env1 w].
    intros H. apply IH in H. exact H.
Qed.

Lemma run_body_total stmts env st :
  ∃ env' st', run_body exec stmts env st = inr (env', st').
Proof.
  revert env st. induction stmts as [|s stmts IH]; intros env st.
  - eexists _, _. reflexivity.
  - cbn [run_body]. destruct (exec s env (world st)) as [env1 w]. apply IH.
Qed.

(** A module that is in the module map is not loaded again: importing
    it returns its export table and leaves the state as it is. *)
Lemma import_module_cached fuel spec st ns :
  module_map st !! spec = Some ns →
  import_module exec registry fuel spec st = inr (ns, st).
Proof. intros H. destruct fuel; cbn [import_module]; rewrite H; reflexivity. Qed.

(** A successful import leaves the module in the module map. *)
Lemma import_module_registers fuel spec st ns st' :
  import_module exec registry fuel spec st = inr (ns, st') →
  module_map st' !! spec = Some ns.
Proof.
  destruct fuel; cbn [import_module];
    destruct (module_map st !! spec) as [ns0|] eqn:Hc.
  1,3: intros [= <- <-]; exact Hc.
  - destruct (registry !! spec) as [[nsx init|m]|]; [|discriminate..].
    intros [= <- <-]. cbn. apply lookup_insert_eq.
  - destruct (registry !! spec) as [[nsx init|m]|]; [| |discriminate].
    + intros [= <- <-]. cbn. apply lookup_insert_eq.
    + intros H.
      apply bind_inr in H as (env & st1 & _ & H).
      apply bind_inr in H as (env1 & st2 & _ & H).
      apply bind_inr in H as (ns1 & st3 & _ & Hreg).
      unfold register in Hreg. injection Hreg as <- <-. cbn.
      apply lookup_insert_eq.
Qed.

(** A property of the module map that survives the registration of a
    module not yet loaded survives every import. *)
Lemma import_module_preserves (P : gmap string namespace → Prop) :
  (∀ m m' s ns, P m → m !! s = None → is_Some (registry !! s) →
                P m' → P (<[s := ns]> m')) →
  ∀ fuel spec st ns st',
    P (module_map st) →
    import_module exec registry fuel spec st = inr (ns, st') →
    P (module_map st').
Proof.
  intros Hins fuel. induction fuel as [|fuel IH]; intros spec st ns st' HP;
    cbn [import_module];
    destruct (module_map st !! spec) as [ns0|] eqn:Hc.
  1,3: intros [= _ <-]; exact HP.
  - destruct (registry !! spec) as [[nsx init|m]|] eqn:Hr; [|discriminate..].
    intros [= _ <-]. cbn. eapply Hins; eauto.
  - destruct (registry !! spec) as [[nsx init|m]|] eqn:Hr; [| |discriminate].
    + intros [= _ <-]. cbn. eapply Hins; eauto.
    + intros H.
      apply bind_inr in H as (env & st1 & Hlink & H).
      apply bind_inr in H as (env1 & st2 & Hbody & H).
      apply bind_inr in H as (ns1 & st3 & Hlift & Hreg).
      unfold register in Hreg. injection Hreg as _ <-. cbn.
      assert (st3 = st2) as ->.
      { unfold lift in Hlift. destruct build_exports; [discriminate|].
        injection Hlift as _ <-. reflexivity. }
      eapply Hins; eauto.
      rewrite (run_body_module_map _ _ _ _ _ Hbody).
      eapply (link_imports_inv (λ s, P (module_map s))); [|exact HP|exact Hlink].
      intros s sa nsa sb. apply IH.
Qed.

(** The module map only grows: an export table that is in it stays in
    it, unchanged, through every import. *)
Lemma import_module_stable fuel spec st ns st' k v :
  module_map st !! k = Some v →
  import_module exec registry fuel spec st = inr (ns, st') →
  module_map st' !! k = Some v.
Proof.
  apply (import_module_preserves (λ m, m !! k = Some v)).
  intros m m' s ns0 Hk Hs _ Hk'.
  rewrite lookup_insert_ne; [exact Hk'|]. congruence.
Qed.

(** A module that the host cannot locate never enters the module map. *)
Lemma import_module_unlocated fuel spec st ns st' k :
  registry !! k = None →
  module_map st !! k = None →
  import_module exec registry fuel spec st = inr (ns, st') →
  module_map st' !! k = None.
Proof.
  intros Hk. apply (import_module_preserves (λ m, m !! k = None)).
  intros m m' s ns0 _ _ [x Hx] Hk'.
  rewrite lookup_insert_ne; [exact Hk'|]. congruence.
Qed.

Lemma step_stable op st k v :
  module_map st !! k = Some v →
  module_map (step exec registry op st) !! k = Some v.
Proof.
  intros Hk. destruct op as [fuel spec|fuel ie]; cbn [step].
  - destruct import_module as [e|[ns st']] eqn:H; [exact Hk|].
    eapply import_module_stable; eauto.
  - destruct resolve_import as [e|[env st']] eqn:H; [exact Hk|].
    apply resolve_import_inr in H as (ns & r & Hl & _ & _).
    eapply import_module_stable; eauto.
Qed.

(** Nothing a consumer does removes or replaces a loaded export table. *)
Lemma run_stable ops st k v :
  module_map st !! k = Some v →
  module_map (run exec registry ops st) !! k = Some v.
Proof.
  revert st. induction ops as [|op ops IH]; intros st Hk; [exact Hk|].
  cbn. apply IH. apply step_stable. exact Hk.
Qed.

End LoaderFacts.

(** ** The aggregator, loaded *)

Section Aggregator.
Context {World Stmt : Type}.
Variable exec : Stmt → namespace → World → namespace * World.
Variable registry : gmap string (module_source World Stmt).

(** The specifier under which the host finds [index.js]. *)
Variable agg : string.
Hypothesis Hagg : registry !! agg = Some (Source IndexJs.index_js).

Implicit Types (st : loader_state World) (ns env : namespace).

Local Abbreviation import fuel := (import_module exec registry fuel).

(** The first import of the aggregator succeeds exactly when the four
    requested modules load, in the order of the import declarations,
    and each has a default export; the export table binds the four
    names to those four references, and the state is the state after
    the four imports with the aggregator added to the module map. *)
Lemma aggregator_import fuel st ns st' :
  module_map st !! agg = None →
  import (S fuel) agg st = inr (ns, st') ↔
  ∃ nd nb nv nc st1 st2 st3 st4 rd rb rs rc,
    import fuel "./detection-status.mixin" st = inr (nd, st1) ∧
    import fuel "./bug-path-length-color.mixin" st1 = inr (nb, st2) ∧
    import fuel "./severity.mixin" st2 = inr (nv, st3) ∧
    import fuel "./str-to-color.mixin" st3 = inr (nc, st4) ∧
    nd !! "default" = Some rd ∧ nb !! "default" = Some rb ∧
    nv !! "default" = Some rs ∧ nc !! "default" = Some rc ∧
    ns = export_table rb rd rs rc ∧
    st' = LoaderState (<[agg := ns]> (module_map st4)) (world st4).
Proof.
  intros Hfresh. cbn [import_module]. rewrite Hfresh, Hagg.
  cbn [IndexJs.index_js import_entries export_entries body link_imports].
  split.
  - intros H.
    apply bind_inr in H as (env & s5 & H & Hrest).
    apply bind_inr in H as (e1 & st1 & H1 & H).
    apply bind_inr in H as (e2 & st2 & H2 & H).
    apply bind_inr in H as (e3 & st3 & H3 & H).
    apply bind_inr in H as (e4 & st4 & H4 & H).
    injection H as <- <-.
    apply resolve_import_inr in H1 as (nd & rd & H1 & Hd & ->).
    apply resolve_import_inr in H2 as (nb & rb & H2 & Hb & ->).
    apply resolve_import_inr in H3 as (nv & rs & H3 & Hs & ->).
    apply resolve_import_inr in H4 as (nc & rc & H4 & Hc & ->).
    cbn [module_request import_name local_name] in *.
    exists nd, nb, nv, nc, st1, st2, st3, st4, rd, rb, rs, rc.
    repeat (split; [assumption|]).
    cbn [run_body] in Hrest.
    apply bind_inr in Hrest as (env' & s6 & [= <- <-] & Hrest).
    apply bind_inr in Hrest as (ns' & s7 & Hb' & Hreg).
    unfold lift in Hb'. cbn [build_exports export_local export_name] in Hb'.
    simplify_map_eq.
    unfold register in Hreg. injection Hreg as <- <-. split; reflexivity.
  - intros (nd & nb & nv & nc & st1 & st2 & st3 & st4 & rd & rb & rs & rc
            & H1 & H2 & H3 & H4 & Hd & Hb & Hs & Hc & -> & ->).
    unfold bind, resolve_import, bind.
    cbn [module_request import_name local_name].
    rewrite H1, Hd. cbn [ret]. rewrite H2, Hb. cbn [ret].
    rewrite H3, Hs. cbn [ret]. rewrite H4, Hc. cbn [ret run_body].
    unfold lift. cbn [build_exports export_local export_name].
    simplify_map_eq. reflexivity.
Qed.

(** The aggregator is not filed under the specifier of one of the
    modules it requests. *)
Hypothesis Hdistinct : agg ∉ mixin_requests.

(** After the first import the module map holds the aggregator and the
    four modules, and the export table binds each name to the default
    export of its module. *)
Lemma aggregator_loaded fuel st ns st' :
  module_map st !! agg = None →
  import fuel agg st = inr (ns, st') →
  ∃ nd nb nv nc rd rb rs rc,
    ns = export_table rb rd rs rc ∧
    module_map st' !! agg = Some ns ∧
    module_map st' !! "./detection-status.mixin" = Some nd ∧
    module_map st' !! "./bug-path-length-color.mixin" = Some nb ∧
    module_map st' !! "./severity.mixin" = Some nv ∧
    module_map st' !! "./str-to-color.mixin" = Some nc ∧
    nd !! "default" = Some rd ∧ nb !! "default" = Some rb ∧
    nv !! "default" = Some rs ∧ nc !! "default" = Some rc.
Proof.
  intros Hfresh Himp.
  destruct fuel as [|fuel].
  { cbn [import_module] in Himp. rewrite Hfresh, Hagg in Himp. discriminate. }
  pose proof (import_module_registers _ _ _ _ _ _ _ Himp) as Hreg.
  apply aggregator_import in Himp
    as (nd & nb & nv & nc & st1 & st2 & st3 & st4 & rd & rb & rs & rc
        & H1 & H2 & H3 & H4 & Hd & Hb & Hs & Hc & Hns & Hst); [|exact Hfresh].
  exists nd, nb, nv, nc, rd, rb, rs, rc.
  split; [exact Hns|]. split; [exact Hreg|].
  assert (Hne : ∀ s, s ∈ mixin_requests → agg ≠ s) by (intros s Hs' ->; auto).
  pose proof (import_module_registers _ _ _ _ _ _ _ H1) as R1.
  pose proof (import_module_registers _ _ _ _ _ _ _ H2) as R2.
  pose proof (import_module_registers _ _ _ _ _ _ _ H3) as R3.
  pose proof (import_module_registers _ _ _ _ _ _ _ H4) as R4.
  pose proof (import_module_stable _ _ _ _ _ _ _ _ _ R1 H2) as R12.
  pose proof (import_module_stable _ _ _ _ _ _ _ _ _ R12 H3) as R13.
  pose proof (import_module_stable _ _ _ _ _ _ _ _ _ R13 H4) as R14.
  pose proof (import_module_stable _ _ _ _ _ _ _ _ _ R2 H3) as R23.
  pose proof (import_module_stable _ _ _ _ _ _ _ _ _ R23 H4) as R24.
  pose proof (import_module_stable _ _ _ _ _ _ _ _ _ R3 H4) as R34.
  rewrite Hst. cbn [module_map].
  rewrite !lookup_insert_ne by (apply Hne; unfold mixin_requests; set_solver).
  repeat (split; [assumption|]). assumption.
Qed.

(** Importing a name from a module that is in the module map. *)
Lemma resolve_import_cached fuel st s n name x env :
  module_map st !! s = Some n →
  resolve_import (import fuel) (ImportEntry s name x) env st =
  match n !! name with
  | Some r => inr (<[x := r]> env, st)
  | None => inl (ExportNotFound s name)
  end.
Proof.
  intros Hs. unfold resolve_import, bind. cbn [module_request import_name local_name].
  rewrite (import_module_cached _ _ _ _ _ _ Hs).
  destruct (n !! name); reflexivity.
Qed.

Lemma export_table_lookup rb rd rs rc name :
  export_table rb rd rs rc !! name =
  if decide (name = "StrToColorMixin") then Some rc
  else if decide (name = "SeverityMixin") then Some rs
  else if decide (name = "DetectionStatusMixin") then Some rd
  else if decide (name = "BugPathLengthColorMixin") then Some rb
  else None.
Proof.
  unfold export_table. repeat case_decide; simplify_map_eq; reflexivity.
Qed.

Lemma export_table_is_Some rb rd rs rc name :
  is_Some (export_table rb rd rs rc !! name) ↔ name ∈ mixin_names.
Proof.
  rewrite export_table_lookup. unfold mixin_names.
  rewrite !elem_of_cons, elem_of_nil.
  repeat case_decide; subst.
  1-4: split; [intros _; auto 10 | intros _; eauto].
  split; [intros [? [=]] | intros [|[|[|[|[]]]]]; congruence].
Qed.

(** Both imports read the module map: the aggregator's entry [Ma] and
    the mixin module's entry [Mx], whose default export is [Dx]. *)
Local Ltac both_cached Ma Mx Dx :=
  let st2 := fresh "st2" in
  intros ? ? ? ? st2; subst st2; split;
  [ rewrite (resolve_import_cached _ _ _ _ _ _ _ (run_stable _ _ _ _ _ _ Ma))
  | rewrite (resolve_import_cached _ _ _ _ _ _ _ (run_stable _ _ _ _ _ _ Mx)), Dx ];
  reflexivity.

(** C1.  Identity pass-through.  After the aggregator has been loaded,
    for each of the four names paired with its mixin module: the export
    table of the aggregator holds a reference [r] under the name, and at
    any later point of the process importing the name from the aggregator
    and importing the default export of the mixin module directly bind
    the same reference [r], with no change of state. *)
Theorem aggregator_identity fuel st ns st' name spec :
  module_map st !! agg = None →
  import fuel agg st = inr (ns, st') →
  (name, spec) ∈ underlying →
  ∃ r, ns !! name = Some r ∧
    ∀ ops fuel2 x env,
      let st2 := run exec registry ops st' in
      resolve_import (import fuel2) (ImportEntry agg name x) env st2
        = inr (<[x := r]> env, st2) ∧
      resolve_import (import fuel2) (ImportEntry spec "default" x) env st2
        = inr (<[x := r]> env, st2).
Proof.
  intros Hfresh Himp Hin.
  destruct (aggregator_loaded _ _ _ _ Hfresh Himp)
    as (nd & nb & nv & nc & rd & rb & rs & rc & -> & Ma & Md & Mb & Mv & Mc
        & Dd & Db & Dv & Dc).
  unfold underlying in Hin. rewrite !elem_of_cons, elem_of_nil in Hin.
  destruct Hin as [[= -> ->]|[[= -> ->]|[[= -> ->]|[[= -> ->]|[]]]]].
  - exists rb. split; [reflexivity|]. both_cached Ma Mb Db.
  - exists rd. split; [reflexivity|]. both_cached Ma Md Dd.
  - exists rs. split; [reflexivity|]. both_cached Ma Mv Dv.
  - exists rc. split; [reflexivity|]. both_cached Ma Mc Dc.
Qed.

(** C2.  The export table of the loaded aggregator has exactly the four
    names BugPathLengthColorMixin, DetectionStatusMixin, SeverityMixin
    and StrToColorMixin: they are its domain, it has four entries, and
    they are the export names of the export list, in that order. *)
Theorem aggregator_exports_four fuel st ns st' :
  module_map st !! agg = None →
  import fuel agg st = inr (ns, st') →
  dom ns = list_to_set mixin_names ∧
  size ns = 4 ∧
  export_name <$> export_entries (@IndexJs.index_js Stmt) = mixin_names.
Proof.
  intros Hfresh Himp.
  destruct (aggregator_loaded _ _ _ _ Hfresh Himp)
    as (nd & nb & nv & nc & rd & rb & rs & rc & -> & _).
  assert (Hdom : dom (export_table rb rd rs rc) = list_to_set mixin_names).
  { apply set_eq. intros name.
    rewrite elem_of_dom, export_table_is_Some, elem_of_list_to_set.
    reflexivity. }
  split; [exact Hdom|]. split; [|reflexivity].
  rewrite <- size_dom, Hdom. reflexivity.
Qed.

(** C3.  Every entry of the export list exports its local binding under
    the same name (no renaming); exactly one import entry binds that
    name, it imports the default export of the module paired with the
    name, and in the loaded aggregator the name holds that module's
    default export.  No two export entries share a name and no two
    import entries share a module (no merging). *)
Theorem exports_resolve_to_one_definition fuel st ns st' ee :
  module_map st !! agg = None →
  import fuel agg st = inr (ns, st') →
  ee ∈ export_entries (@IndexJs.index_js Stmt) →
  export_name ee = export_local ee ∧
  (∃ ie,
     ie ∈ import_entries (@IndexJs.index_js Stmt) ∧
     local_name ie = export_local ee ∧
     (∀ ie', ie' ∈ import_entries (@IndexJs.index_js Stmt) →
             local_name ie' = export_local ee → ie' = ie) ∧
     import_name ie = "default" ∧
     (export_name ee, module_request ie) ∈ underlying ∧
     ∃ nsd r, module_map st' !! module_request ie = Some nsd ∧
              nsd !! "default" = Some r ∧
              ns !! export_name ee = Some r) ∧
  NoDup (export_name <$> export_entries (@IndexJs.index_js Stmt)) ∧
  NoDup (module_request <$> import_entries (@IndexJs.index_js Stmt)).
Proof.
  intros Hfresh Himp Hee.
  destruct (aggregator_loaded _ _ _ _ Hfresh Himp)
    as (nd & nb & nv & nc & rd & rb & rs & rc & -> & Ma & Md & Mb & Mv & Mc
        & Dd & Db & Dv & Dc).
  split; [|split; [|split]].
  - cbn in Hee. rewrite !elem_of_cons, elem_of_nil in Hee.
    destruct Hee as [->|[->|[->|[->|[]]]]]; reflexivity.
  - cbn in Hee. rewrite !elem_of_cons, elem_of_nil in Hee.
    destruct Hee as [->|[->|[->|[->|[]]]]]; cbn [export_local export_name].
    + exists (ImportEntry "./bug-path-length-color.mixin" "default"
                          "BugPathLengthColorMixin").
      repeat split; [cbn; set_solver|..|unfold underlying; set_solver|eauto 10].
      intros ie'. cbn. rewrite !elem_of_cons, elem_of_nil.
      intros [->|[->|[->|[->|[]]]]]; cbn; congruence.
    + exists (ImportEntry "./detection-status.mixin" "default"
                          "DetectionStatusMixin").
      repeat split; [cbn; set_solver|..|unfold underlying; set_solver|eauto 10].
      intros ie'. cbn. rewrite !elem_of_cons, elem_of_nil.
      intros [->|[->|[->|[->|[]]]]]; cbn; congruence.
    + exists (ImportEntry "./severity.mixin" "default" "SeverityMixin").
      repeat split; [cbn; set_solver|..|unfold underlying; set_solver|eauto 10].
      intros ie'. cbn. rewrite !elem_of_cons, elem_of_nil.
      intros [->|[->|[->|[->|[]]]]]; cbn; congruence.
    + exists (ImportEntry "./str-to-color.mixin" "default" "StrToColorMixin").
      repeat split; [cbn; set_solver|..|unfold underlying; set_solver|eauto 10].
      intros ie'. cbn. rewrite !elem_of_cons, elem_of_nil.
      intros [->|[->|[->|[->|[]]]]]; cbn; congruence.
  - cbn. refine (bool_decide_unpack _ _). vm_compute. exact I.
  - cbn. refine (bool_decide_unpack _ _). vm_compute. exact I.
Qed.

(** C5.  A name resolves through the loaded aggregator if and only if it
    is one of the four: the export table has an entry for exactly those
    names, importing one of them from the aggregator binds its
    reference, and importing any other name from the aggregator fails
    with the resolution error [ExportNotFound]. *)
Theorem aggregator_resolves_only_four fuel st ns st' name :
  module_map st !! agg = None →
  import fuel agg st = inr (ns, st') →
  (is_Some (ns !! name) ↔ name ∈ mixin_names) ∧
  ∀ ops fuel2 x env,
    let st2 := run exec registry ops st' in
    let res := resolve_import (import fuel2) (ImportEntry agg name x) env st2 in
    (name ∈ mixin_names →
       ∃ r, ns !! name = Some r ∧ res = inr (<[x := r]> env, st2)) ∧
    (name ∉ mixin_names → res = inl (ExportNotFound agg name)) ∧
    ((∃ env' st3, res = inr (env', st3)) ↔ name ∈ mixin_names).
Proof.
  intros Hfresh Himp.
  destruct (aggregator_loaded _ _ _ _ Hfresh Himp)
    as (nd & nb & nv & nc & rd & rb & rs & rc & -> & Ma & _).
  pose proof (export_table_is_Some rb rd rs rc name) as Hiff.
  split; [exact Hiff|].
  intros ops fuel2 x env st2 res. subst res st2.
  rewrite (resolve_import_cached _ _ _ _ _ _ _ (run_stable _ _ ops _ _ _ Ma)).
  destruct (export_table rb rd rs rc !! name) as [r|] eqn:Hr.
  - assert (Hin : name ∈ mixin_names) by (apply Hiff; eauto).
    split; [eauto|]. split; [intros Hn; contradiction|].
    split; [auto|eauto].
  - assert (Hout : name ∉ mixin_names) by (intros Hn; apply Hiff in Hn as [? [=]]).
    split; [intros Hn; contradiction|]. split; [reflexivity|].
    split; [intros (env' & st3 & [=])|intros Hn; contradiction].
Qed.

(** C10.  The aggregator has no default export: no entry of its export
    list is named [default], the export table of the loaded aggregator
    has no [default] entry, and a default import from the aggregator
    fails with [ExportNotFound]. *)
Theorem aggregator_no_default_export fuel st ns st' :
  module_map st !! agg = None →
  import fuel agg st = inr (ns, st') →
  Forall (λ ee, export_name ee ≠ "default")
         (export_entries (@IndexJs.index_js Stmt)) ∧
  ns !! "default" = None ∧
  ∀ ops fuel2 x env,
    resolve_import (import fuel2) (ImportEntry agg "default" x) env
                   (run exec registry ops st')
    = inl (ExportNotFound agg "default").
Proof.
  intros Hfresh Himp.
  destruct (aggregator_loaded _ _ _ _ Hfresh Himp)
    as (nd & nb & nv & nc & rd & rb & rs & rc & -> & Ma & _).
  split; [|split].
  - cbn. repeat constructor; discriminate.
  - reflexivity.
  - intros ops fuel2 x env.
    rewrite (resolve_import_cached _ _ _ _ _ _ _ (run_stable _ _ ops _ _ _ Ma)).
    reflexivity.
Qed.

(** C6.  Resolution is idempotent.  Once the aggregator has been loaded
    with export table [ns], every later import of it, at any two points
    of the process and however often repeated, returns the same table
    [ns] and leaves the state as it is; so an identifier read through
    any two imports is the same reference. *)
Theorem aggregator_reimport_idempotent fuel st ns st' :
  module_map st !! agg = None →
  import fuel agg st = inr (ns, st') →
  ∀ ops1 ops2 fuel1 fuel2 n,
    let sta := run exec registry ops1 st' in
    let stb := run exec registry ops2 sta in
    import fuel1 agg sta = inr (ns, sta) ∧
    import fuel2 agg stb = inr (ns, stb) ∧
    import_all (import fuel2) (replicate n agg) stb
      = inr (replicate n ns, stb) ∧
    ∀ name x env, name ∈ mixin_names →
      ∃ r,
        resolve_import (import fuel1) (ImportEntry agg name x) env sta
          = inr (<[x := r]> env, sta) ∧
        resolve_import (import fuel2) (ImportEntry agg name x) env stb
          = inr (<[x := r]> env, stb).
Proof.
  intros Hfresh Himp ops1 ops2 fuel1 fuel2 n sta stb.
  pose proof (import_module_registers _ _ _ _ _ _ _ Himp) as Ma.
  assert (Msa : module_map sta !! agg = Some ns) by (apply run_stable, Ma).
  assert (Msb : module_map stb !! agg = Some ns) by (apply run_stable, Msa).
  split; [apply import_module_cached, Msa|].
  split; [apply import_module_cached, Msb|].
  split.
  - induction n as [|n IH]; [reflexivity|].
    cbn [replicate import_all]. unfold bind at 1.
    rewrite (import_module_cached _ _ _ _ _ _ Msb).
    unfold bind. rewrite IH. reflexivity.
  - intros name x env Hname.
    destruct (aggregator_loaded _ _ _ _ Hfresh Himp)
      as (nd & nb & nv & nc & rd & rb & rs & rc & Hns & _).
    assert (Hr : is_Some (ns !! name))
      by (rewrite Hns; apply export_table_is_Some, Hname).
    destruct Hr as [r Hr]. exists r.
    rewrite (resolve_import_cached _ _ _ _ _ _ _ Msa).
    rewrite (resolve_import_cached _ _ _ _ _ _ _ Msb).
    rewrite Hr. split; reflexivity.
Qed.

(** C7.  The export table is built by the first import and never
    changes.  Before the load the module map has no table for the
    aggregator; after it, whatever consumers do (imports of any module,
    reads of any name), the module map holds the same table [ns], and
    importing the aggregator or reading a name from it changes nothing
    in the state. *)
Theorem aggregator_table_immutable fuel st ns st' ops :
  module_map st !! agg = None →
  import fuel agg st = inr (ns, st') →
  let st2 := run exec registry ops st' in
  module_map st2 !! agg = Some ns ∧
  (∀ name, name ∈ mixin_names →
     is_Some (ns !! name) ∧
     module_map st2 !! agg ≫= (λ table, table !! name) = ns !! name) ∧
  (∀ fuel2, step exec registry (OpImport fuel2 agg) st2 = st2) ∧
  (∀ fuel2 name x,
     step exec registry (OpResolve fuel2 (ImportEntry agg name x)) st2 = st2).
Proof.
  intros Hfresh Himp st2.
  pose proof (import_module_registers _ _ _ _ _ _ _ Himp) as Ma.
  assert (M2 : module_map st2 !! agg = Some ns) by (apply run_stable, Ma).
  split; [exact M2|]. split; [|split].
  - intros name Hname. rewrite M2. split; [|reflexivity].
    destruct (aggregator_loaded _ _ _ _ Hfresh Himp)
      as (nd & nb & nv & nc & rd & rb & rs & rc & Hns & _).
    rewrite Hns. apply export_table_is_Some, Hname.
  - intros fuel2. cbn [step].
    rewrite (import_module_cached _ _ _ _ _ _ M2). reflexivity.
  - intros fuel2 name x. cbn [step].
    rewrite (resolve_import_cached _ _ _ _ _ _ _ M2).
    destruct (ns !! name); reflexivity.
Qed.

Lemma import_all_cached fuel st specs :
  Forall (λ s, is_Some (module_map st !! s)) specs →
  ∃ nss, import_all (import fuel) specs st = inr (nss, st).
Proof.
  induction 1 as [|s specs [n Hs] _ [nss IH]]; [eexists; reflexivity|].
  exists (n :: nss). cbn [import_all]. unfold bind at 1.
  rewrite (import_module_cached _ _ _ _ _ _ Hs).
  unfold bind. rewrite IH. reflexivity.
Qed.

(** C8.  Loading the aggregator does what importing the four mixin
    modules directly, in the order of the import declarations, does,
    and adds its export table to the module map; nothing else.  The
    module has no statement.  When the four modules are already loaded,
    the world is untouched.  Importing a name from the loaded aggregator
    leaves the whole state, other bindings and world, as it is. *)
Theorem aggregator_effects fuel st ns st' :
  module_map st !! agg = None →
  import fuel agg st = inr (ns, st') →
  body (@IndexJs.index_js Stmt) = [] ∧
  (∃ nss st4,
     import_all (import (pred fuel)) mixin_requests st = inr (nss, st4) ∧
     world st' = world st4 ∧
     module_map st' = <[agg := ns]> (module_map st4)) ∧
  (Forall (λ s, is_Some (module_map st !! s)) mixin_requests →
     world st' = world st ∧
     module_map st' = <[agg := ns]> (module_map st)) ∧
  (∀ ops fuel2 name x,
     let st2 := run exec registry ops st' in
     step exec registry (OpResolve fuel2 (ImportEntry agg name x)) st2 = st2).
Proof.
  intros Hfresh Himp.
  pose proof (import_module_registers _ _ _ _ _ _ _ Himp) as Ma.
  destruct fuel as [|fuel].
  { cbn [import_module] in Himp. rewrite Hfresh, Hagg in Himp. discriminate. }
  apply aggregator_import in Himp
    as (nd & nb & nv & nc & st1 & st2 & st3 & st4 & rd & rb & rs & rc
        & H1 & H2 & H3 & H4 & Hd & Hb & Hs & Hc & Hns & Hst); [|exact Hfresh].
  assert (Hall : import_all (import fuel) mixin_requests st
                 = inr ([nd; nb; nv; nc], st4)).
  { cbn [mixin_requests import_all]. unfold bind.
    rewrite H1, H2, H3, H4. reflexivity. }
  split; [reflexivity|]. split; [|split].
  - exists [nd; nb; nv; nc], st4. cbn [pred]. rewrite Hst. auto.
  - intros Hcached.
    destruct (import_all_cached fuel st _ Hcached) as [nss Hnss].
    rewrite Hall in Hnss. injection Hnss as _ ->.
    rewrite Hst. auto.
  - intros ops fuel2 name x sta. subst sta. cbn [step].
    rewrite (resolve_import_cached _ _ _ _ _ _ _ (run_stable _ _ ops _ _ _ Ma)).
    destruct (ns !! name); reflexivity.
Qed.

(** *** Failure of the load *)

Lemma not_inr_inl {A} (r : load_error + A) :
  (∀ a, r ≠ inr a) → ∃ e, r = inl e.
Proof. destruct r as [e|a]; [eauto|]. intros H. destruct (H a eq_refl). Qed.

Lemma import_module_unlocated_fails fuel st spec :
  unlocated registry st spec →
  import fuel spec st = inl (ModuleNotFound spec).
Proof.
  intros [Hr Hm]. destruct fuel; cbn [import_module]; rewrite Hm, Hr; reflexivity.
Qed.

Lemma unlocated_preserved fuel s st ns st' spec :
  unlocated registry st spec →
  import fuel s st = inr (ns, st') →
  unlocated registry st' spec.
Proof.
  intros [Hr Hm] Himp. split; [exact Hr|].
  eapply import_module_unlocated; eauto.
Qed.

(** Linking fails when one of the entries requests a module whose load
    fails in every state that satisfies an invariant of the loads. *)
Lemma link_imports_blocked (I : loader_state World → Prop)
    (load : string → loader World namespace) spec :
  (∀ s st ns st', I st → load s st = inr (ns, st') → I st') →
  (∀ st, I st → ∃ e, load spec st = inl e) →
  ∀ ies, (∃ ie, ie ∈ ies ∧ module_request ie = spec) →
  ∀ env st, I st → ∃ e, link_imports load ies env st = inl e.
Proof.
  intros Hkeep Hfail ies. induction ies as [|ie ies IH].
  - intros (ie & Hin & _). inversion Hin.
  - intros (ie0 & Hin & Hreq) env st HI. cbn [link_imports].
    destruct (resolve_import load ie env st) as [e|[env1 st1]] eqn:Hres.
    { exists e. apply bind_inl, Hres. }
    unfold bind. rewrite Hres.
    apply resolve_import_inr in Hres as (ns & r & Hl & _ & _).
    apply elem_of_cons in Hin as [->|Hin].
    + destruct (Hfail st HI) as [e He]. rewrite Hreq in Hl. congruence.
    + apply IH; [eauto|]. eapply Hkeep; eauto.
Qed.

(** The aggregator does not load while one of the modules it requests
    cannot be located. *)
Lemma aggregator_needs_all fuel st spec ns st' :
  module_map st !! agg = None →
  spec ∈ mixin_requests →
  unlocated registry st spec →
  import fuel agg st ≠ inr (ns, st').
Proof.
  intros Hfresh Hin Hun Himp.
  destruct fuel as [|fuel].
  { cbn [import_module] in Himp. rewrite Hfresh, Hagg in Himp. discriminate. }
  apply aggregator_import in Himp
    as (nd & nb & nv & nc & st1 & st2 & st3 & st4 & rd & rb & rs & rc
        & H1 & H2 & H3 & H4 & _); [|exact Hfresh].
  pose proof (unlocated_preserved _ _ _ _ _ _ Hun H1) as U1.
  pose proof (unlocated_preserved _ _ _ _ _ _ U1 H2) as U2.
  pose proof (unlocated_preserved _ _ _ _ _ _ U2 H3) as U3.
  unfold mixin_requests in Hin. rewrite !elem_of_cons, elem_of_nil in Hin.
  destruct Hin as [->|[->|[->|[->|[]]]]].
  - rewrite (import_module_unlocated_fails _ _ _ Hun) in H1. discriminate.
  - rewrite (import_module_unlocated_fails _ _ _ U1) in H2. discriminate.
  - rewrite (import_module_unlocated_fails _ _ _ U2) in H3. discriminate.
  - rewrite (import_module_unlocated_fails _ _ _ U3) in H4. discriminate.
Qed.

(** While a requested module cannot be located, no import of any module
    brings the aggregator into the module map. *)
Lemma aggregator_stays_out spec :
  spec ∈ mixin_requests →
  ∀ fuel target st ns st',
    unlocated registry st spec →
    module_map st !! agg = None →
    import fuel target st = inr (ns, st') →
    module_map st' !! agg = None.
Proof.
  intros Hin fuel.
  induction fuel as [|fuel IH]; intros target st ns st' Hun Hfresh Himp.
  - cbn [import_module] in Himp.
    destruct (module_map st !! target) as [n0|] eqn:Hc.
    { injection Himp as _ <-. exact Hfresh. }
    destruct (registry !! target) as [[nx init|m]|] eqn:Hr; [|discriminate..].
    injection Himp as _ <-. cbn [module_map].
    rewrite lookup_insert_ne; [exact Hfresh|]. congruence.
  - destruct (decide (target = agg)) as [->|Hne].
    { exfalso. eapply aggregator_needs_all; eauto. }
    cbn [import_module] in Himp.
    destruct (module_map st !! target) as [n0|] eqn:Hc.
    { injection Himp as _ <-. exact Hfresh. }
    destruct (registry !! target) as [[nx init|m]|] eqn:Hr; [| |discriminate].
    + injection Himp as _ <-. cbn [module_map].
      rewrite lookup_insert_ne; [exact Hfresh|]. congruence.
    + apply bind_inr in Himp as (env & st1 & Hlink & H).
      apply bind_inr in H as (env1 & st2 & Hbody & H).
      apply bind_inr in H as (ns1 & st3 & Hlift & Hreg).
      unfold register in Hreg. injection Hreg as _ <-. cbn [module_map].
      assert (st3 = st2) as ->.
      { unfold lift in Hlift. destruct build_exports; [discriminate|].
        injection Hlift as _ <-. reflexivity. }
      rewrite lookup_insert_ne by congruence.
      rewrite (run_body_module_map _ _ _ _ _ _ Hbody).
      refine (proj2 (link_imports_inv
        (λ s, unlocated registry s spec ∧ module_map s !! agg = None)
        (import fuel) _ _ _ _ _ _ (conj Hun Hfresh) Hlink)).
      intros s sa nsa sb [Hu Hf] Hl. split.
      * eapply unlocated_preserved; eauto.
      * eapply IH; eauto.
Qed.

Lemma available_import fuel st s :
  available registry st s →
  ∃ ns st', import fuel s st = inr (ns, st') ∧
            is_Some (ns !! "default") ∧
            module_map st' = <[s := ns]> (module_map st).
Proof.
  intros (ns & Hdef & [Hc|[Hc [init Hr]]]).
  - exists ns, st. rewrite (import_module_cached _ _ _ _ _ _ Hc).
    rewrite insert_id by exact Hc. auto.
  - eexists ns, _. destruct fuel; cbn [import_module]; rewrite Hc, Hr;
      (split; [reflexivity|]); auto.
Qed.

Lemma available_preserved st st' s ns t :
  is_Some (ns !! "default") →
  module_map st' = <[s := ns]> (module_map st) →
  available registry st t →
  available registry st' t.
Proof.
  intros Hdef Hmap (nt & Hdt & Ht).
  destruct (decide (t = s)) as [->|Hne].
  - exists ns. split; [exact Hdef|]. left. rewrite Hmap. apply lookup_insert_eq.
  - exists nt. split; [exact Hdt|].
    rewrite Hmap, lookup_insert_ne by congruence. exact Ht.
Qed.

(** Linking stops at the first entry whose module cannot be located when
    the modules requested before it are at hand with a default export. *)
Lemma link_imports_first_missing fuel spec pre ie post :
  module_request ie = spec →
  ∀ env st,
    unlocated registry st spec →
    Forall (λ i, import_name i = "default" ∧
                 available registry st (module_request i)) pre →
    link_imports (import fuel) (pre ++ ie :: post) env st
    = inl (ModuleNotFound spec).
Proof.
  intros Hreq. induction pre as [|i pre IH]; intros env st Hun Hpre.
  - cbn [app link_imports]. apply bind_inl. unfold resolve_import.
    apply bind_inl. rewrite Hreq. apply import_module_unlocated_fails, Hun.
  - apply Forall_cons in Hpre as [[Hname Hav] Hpre].
    destruct (available_import fuel _ _ Hav) as (ns & st' & Himp & Hdef & Hmap).
    cbn [app link_imports]. unfold bind at 1. unfold resolve_import, bind.
    rewrite Himp, Hname. destruct Hdef as [r Hr]. rewrite Hr. cbn [ret].
    apply IH.
    + eapply unlocated_preserved; eauto.
    + eapply Forall_impl; [exact Hpre|]. cbn. intros j [Hj Haj].
      split; [exact Hj|].
      eapply available_preserved; [|exact Hmap|exact Haj]. eauto.
Qed.

(** C4.  All or nothing.  From a state in which the aggregator is not
    loaded: a successful import has all four names bound and all four
    modules in the module map; and when one of the four modules cannot
    be located, the import fails, whatever the fuel, with the
    resolution error [ModuleNotFound] for that module when the other
    three are at hand, and every module that imports from the
    aggregator fails to load as well. *)
Theorem aggregator_all_or_nothing fuel st :
  module_map st !! agg = None →
  (∀ ns st', import fuel agg st = inr (ns, st') →
     (∀ name, name ∈ mixin_names → is_Some (ns !! name)) ∧
     (∀ s, s ∈ mixin_requests →
           ∃ nsd, module_map st' !! s = Some nsd ∧ is_Some (nsd !! "default"))) ∧
  (∀ spec, spec ∈ mixin_requests → unlocated registry st spec →
     (∃ e, import fuel agg st = inl e) ∧
     ((∀ s, s ∈ mixin_requests → s ≠ spec → available registry st s) →
      fuel ≠ 0 →
      import fuel agg st = inl (ModuleNotFound spec) ∧
      resolution_error (ModuleNotFound spec)) ∧
     (∀ cspec c,
        registry !! cspec = Some (Source c) →
        module_map st !! cspec = None →
        (∃ ie, ie ∈ import_entries c ∧ module_request ie = agg) →
        ∃ e, import fuel cspec st = inl e)).
Proof.
  intros Hfresh. split.
  - intros ns st' Himp.
    destruct (aggregator_loaded _ _ _ _ Hfresh Himp)
      as (nd & nb & nv & nc & rd & rb & rs & rc & -> & Ma & Md & Mb & Mv & Mc
          & Dd & Db & Dv & Dc).
    split.
    + intros name Hname. apply export_table_is_Some, Hname.
    + intros s Hs. unfold mixin_requests in Hs.
      rewrite !elem_of_cons, elem_of_nil in Hs.
      destruct Hs as [->|[->|[->|[->|[]]]]]; eauto.
  - intros spec Hin Hun. split; [|split].
    + apply not_inr_inl. intros [ns st'].
      eapply aggregator_needs_all; eauto.
    + intros Hothers Hfuel. split; [|exact I].
      destruct fuel as [|fuel]; [congruence|].
      cbn [import_module]. rewrite Hfresh, Hagg. apply bind_inl.
      cbn [IndexJs.index_js import_entries].
      assert (Hav : ∀ s, s ∈ mixin_requests → s ≠ spec →
                "default" = "default" ∧ available registry st s)
        by (intros s Hs Hne; split; [reflexivity|auto]).
      unfold mixin_requests in Hin, Hav.
      rewrite !elem_of_cons, elem_of_nil in Hin.
      destruct Hin as [->|[->|[->|[->|[]]]]].
      * eapply (link_imports_first_missing fuel _ []); [reflexivity|exact Hun|].
        constructor.
      * eapply (link_imports_first_missing fuel _ [_]); [reflexivity|exact Hun|].
        repeat (apply Forall_cons; split;
          [apply Hav; [rewrite !elem_of_cons; auto 10|discriminate]|]);
        constructor.
      * eapply (link_imports_first_missing fuel _ [_; _]); [reflexivity|exact Hun|].
        repeat (apply Forall_cons; split;
          [apply Hav; [rewrite !elem_of_cons; auto 10|discriminate]|]);
        constructor.
      * eapply (link_imports_first_missing fuel _ [_; _; _]); [reflexivity|exact Hun|].
        repeat (apply Forall_cons; split;
          [apply Hav; [rewrite !elem_of_cons; auto 10|discriminate]|]);
        constructor.
    + intros cspec c Hc Hcfresh Hdep.
      destruct fuel as [|fuel]; cbn [import_module]; rewrite Hcfresh, Hc.
      { eauto. }
      destruct (link_imports_blocked
                  (λ s, unlocated registry s spec ∧ module_map s !! agg = None)
                  (import fuel) agg) with (ies := import_entries c)
                  (env := (∅ : namespace)) (st := st) as [e He].
      * intros s sa nsa sb [Hu Hf] Hl. split.
        -- eapply unlocated_preserved; eauto.
        -- eapply aggregator_stays_out; eauto.
      * intros sa [Hu Hf]. apply not_inr_inl. intros [nsa sb].
        eapply aggregator_needs_all; eauto.
      * exact Hdep.
      * split; assumption.
      * exists e. apply bind_inl, He.
Qed.

(** *** Loading from modules that are at hand *)

Lemma available_provided st s :
  available registry st s ↔
  ∃ ns, provided registry st s = Some ns ∧ is_Some (ns !! "default").
Proof.
  unfold available, provided. split.
  - intros (ns & Hd & [Hc|[Hc [init Hr]]]); exists ns; rewrite Hc;
      [|rewrite Hr]; auto.
  - intros (ns & Hp & Hd). exists ns. split; [exact Hd|].
    destruct (module_map st !! s) as [n|] eqn:Hc.
    + left. congruence.
    + right. split; [reflexivity|].
      destruct (registry !! s) as [[nx init|m]|]; try discriminate.
      injection Hp as ->. eauto.
Qed.

(** Importing a module the host has at hand: its table, the module map
    with the module in it, and its pending initialisation done. *)
Lemma import_provided fuel st s ns :
  provided registry st s = Some ns →
  import fuel s st
  = inr (ns, LoaderState (<[s := ns]> (module_map st))
                         (pending_init registry st s (world st))).
Proof.
  unfold provided, pending_init. intros Hp.
  destruct (module_map st !! s) as [n|] eqn:Hc.
  - injection Hp as ->. rewrite (import_module_cached _ _ _ _ _ _ Hc).
    rewrite insert_id by exact Hc. destruct st; reflexivity.
  - destruct (registry !! s) as [[nx init|m]|] eqn:Hr; try discriminate.
    injection Hp as ->.
    destruct fuel; cbn [import_module]; rewrite Hc, Hr; reflexivity.
Qed.

Lemma provided_frame st st' t :
  module_map st' !! t = module_map st !! t →
  provided registry st' t = provided registry st t.
Proof. unfold provided. intros ->. reflexivity. Qed.

Lemma pending_init_frame st st' t :
  module_map st' !! t = module_map st !! t →
  pending_init registry st' t = pending_init registry st t.
Proof. unfold pending_init. intros ->. reflexivity. Qed.

(** With the four modules at hand, the first import of the aggregator
    with any fuel but zero returns the table of their default exports;
    the four modules enter the module map and their pending
    initialisations run in the order of the import declarations. *)
Lemma aggregator_available_load fuel st :
  module_map st !! agg = None →
  (∀ s, s ∈ mixin_requests → available registry st s) →
  ∃ nd nb nv nc rd rb rs rc,
    provided registry st "./detection-status.mixin" = Some nd ∧
    provided registry st "./bug-path-length-color.mixin" = Some nb ∧
    provided registry st "./severity.mixin" = Some nv ∧
    provided registry st "./str-to-color.mixin" = Some nc ∧
    nd !! "default" = Some rd ∧ nb !! "default" = Some rb ∧
    nv !! "default" = Some rs ∧ nc !! "default" = Some rc ∧
    import (S fuel) agg st
    = inr (export_table rb rd rs rc,
           LoaderState
             (<[agg := export_table rb rd rs rc]>
               (<["./str-to-color.mixin" := nc]>
                 (<["./severity.mixin" := nv]>
                   (<["./bug-path-length-color.mixin" := nb]>
                     (<["./detection-status.mixin" := nd]> (module_map st))))))
             (pending_init registry st "./str-to-color.mixin"
               (pending_init registry st "./severity.mixin"
                 (pending_init registry st "./bug-path-length-color.mixin"
                   (pending_init registry st "./detection-status.mixin"
                     (world st)))))).
Proof.
  intros Hfresh Hav.
  assert (Hp : ∀ s, s ∈ mixin_requests →
             ∃ ns r, provided registry st s = Some ns ∧ ns !! "default" = Some r).
  { intros s Hs. apply Hav, available_provided in Hs as (ns & Hp & [r Hr]). eauto. }
  unfold mixin_requests in Hp.
  destruct (Hp "./detection-status.mixin") as (nd & rd & Pd & Dd);
    [rewrite !elem_of_cons; auto 10|].
  destruct (Hp "./bug-path-length-color.mixin") as (nb & rb & Pb & Db);
    [rewrite !elem_of_cons; auto 10|].
  destruct (Hp "./severity.mixin") as (nv & rs & Pv & Dv);
    [rewrite !elem_of_cons; auto 10|].
  destruct (Hp "./str-to-color.mixin") as (nc & rc & Pc & Dc);
    [rewrite !elem_of_cons; auto 10|].
  exists nd, nb, nv, nc, rd, rb, rs, rc.
  repeat (split; [assumption|]).
  apply aggregator_import; [exact Hfresh|].
  set (st1 := LoaderState (<["./detection-status.mixin" := nd]> (module_map st))
                (pending_init registry st "./detection-status.mixin" (world st))).
  set (st2 := LoaderState (<["./bug-path-length-color.mixin" := nb]> (module_map st1))
                (pending_init registry st "./bug-path-length-color.mixin" (world st1))).
  set (st3 := LoaderState (<["./severity.mixin" := nv]> (module_map st2))
                (pending_init registry st "./severity.mixin" (world st2))).
  set (st4 := LoaderState (<["./str-to-color.mixin" := nc]> (module_map st3))
                (pending_init registry st "./str-to-color.mixin" (world st3))).
  assert (F1 : ∀ t, t ≠ "./detection-status.mixin" →
                    module_map st1 !! t = module_map st !! t)
    by (intros t Ht; cbn; rewrite lookup_insert_ne by congruence; reflexivity).
  assert (F2 : ∀ t, t ≠ "./detection-status.mixin" →
                    t ≠ "./bug-path-length-color.mixin" →
                    module_map st2 !! t = module_map st !! t)
    by (intros t Ht1 Ht2; cbn; rewrite !lookup_insert_ne by congruence; reflexivity).
  assert (F3 : ∀ t, t ≠ "./detection-status.mixin" →
                    t ≠ "./bug-path-length-color.mixin" →
                    t ≠ "./severity.mixin" →
                    module_map st3 !! t = module_map st !! t)
    by (intros t Ht1 Ht2 Ht3; cbn; rewrite !lookup_insert_ne by congruence;
        reflexivity).
  exists nd, nb, nv, nc, st1, st2, st3, st4, rd, rb, rs, rc.
  split; [apply import_provided, Pd|].
  split.
  { rewrite (import_provided _ st1 _ nb)
      by (rewrite (provided_frame st st1) by (apply F1; discriminate); exact Pb).
    rewrite (pending_init_frame st st1) by (apply F1; discriminate).
    reflexivity. }
  split.
  { rewrite (import_provided _ st2 _ nv)
      by (rewrite (provided_frame st st2) by (apply F2; discriminate); exact Pv).
    rewrite (pending_init_frame st st2) by (apply F2; discriminate).
    reflexivity. }
  split.
  { rewrite (import_provided _ st3 _ nc)
      by (rewrite (provided_frame st st3) by (apply F3; discriminate); exact Pc).
    rewrite (pending_init_frame st st3) by (apply F3; discriminate).
    reflexivity. }
  repeat (split; [assumption|]). split; reflexivity.
Qed.

(** X1.  When the four mixin modules are at hand, each with a default
    export, the first import of the aggregator succeeds with any fuel but
    zero: every one of the four names is bound, to the default export of
    its module, and the module map gains the four modules and the
    aggregator. *)
Theorem aggregator_loads_when_available fuel st :
  module_map st !! agg = None →
  (∀ s, s ∈ mixin_requests → available registry st s) →
  ∃ ns st',
    import (S fuel) agg st = inr (ns, st') ∧
    (∀ name spec, (name, spec) ∈ underlying →
       is_Some (ns !! name) ∧
       ns !! name = provided registry st spec ≫= (λ t, t !! "default")) ∧
    module_map st'
    = <[agg := ns]>
        (foldl (λ m s, match provided registry st s with
                       | Some n => <[s := n]> m
                       | None => m
                       end) (module_map st) mixin_requests).
Proof.
  intros Hfresh Hav.
  destruct (aggregator_available_load fuel st Hfresh Hav)
    as (nd & nb & nv & nc & rd & rb & rs & rc & Pd & Pb & Pv & Pc
        & Dd & Db & Dv & Dc & Himp).
  eexists _, _. split; [exact Himp|]. split.
  - intros name spec Hin. unfold underlying in Hin.
    rewrite !elem_of_cons, elem_of_nil in Hin.
    destruct Hin as [[= -> ->]|[[= -> ->]|[[= -> ->]|[[= -> ->]|[]]]]].
    + rewrite Pb. cbn. rewrite Db. split; [eexists|]; reflexivity.
    + rewrite Pd. cbn. rewrite Dd. split; [eexists|]; reflexivity.
    + rewrite Pv. cbn. rewrite Dv. split; [eexists|]; reflexivity.
    + rewrite Pc. cbn. rewrite Dc. split; [eexists|]; reflexivity.
  - cbn [module_map mixin_requests foldl]. rewrite Pd, Pb, Pv, Pc. reflexivity.
Qed.

(** X3.  Order of initialisation.  When the four mixin modules are at
    hand, what a successful first import of the aggregator does to the
    world is the pending initialisations of the four modules, applied in
    the order of the import declarations (detection status, bug path
    length colour, severity, string to colour), which is not the order of
    the export list; a module that is already loaded is not initialised
    again. *)
Theorem aggregator_initialisation_order fuel st ns st' :
  module_map st !! agg = None →
  (∀ s, s ∈ mixin_requests → available registry st s) →
  import fuel agg st = inr (ns, st') →
  world st'
  = foldl (λ w s, pending_init registry st s w) (world st) mixin_requests ∧
  (∀ s, is_Some (module_map st !! s) → pending_init registry st s = id).
Proof.
  intros Hfresh Hav Himp. split.
  - destruct fuel as [|fuel].
    { cbn [import_module] in Himp. rewrite Hfresh, Hagg in Himp. discriminate. }
    destruct (aggregator_available_load fuel st Hfresh Hav)
      as (nd & nb & nv & nc & rd & rb & rs & rc & _ & _ & _ & _
          & _ & _ & _ & _ & Hload).
    rewrite Hload in Himp. injection Himp as _ <-. reflexivity.
  - intros s [n Hn]. unfold pending_init. rewrite Hn. reflexivity.
Qed.

(** *** A module without a default export *)

(** The table of a module outside the fragment is the one the host has
    for it, whenever it enters the module map. *)
Lemma import_module_external_consistent k nk initk :
  registry !! k = Some (External nk initk) →
  ∀ fuel spec st ns st',
    (module_map st !! k = None ∨ module_map st !! k = Some nk) →
    import fuel spec st = inr (ns, st') →
    module_map st' !! k = None ∨ module_map st' !! k = Some nk.
Proof.
  intros Hk fuel. induction fuel as [|fuel IH]; intros spec st ns st' HP;
    cbn [import_module];
    destruct (module_map st !! spec) as [ns0|] eqn:Hc.
  1,3: intros [= _ <-]; exact HP.
  - destruct (registry !! spec) as [[nsx init|m]|] eqn:Hr; [|discriminate..].
    intros [= _ <-]. cbn [module_map].
    destruct (decide (spec = k)) as [->|Hne].
    + right. rewrite lookup_insert_eq. congruence.
    + rewrite lookup_insert_ne by exact Hne. exact HP.
  - destruct (registry !! spec) as [[nsx init|m]|] eqn:Hr; [| |discriminate].
    + intros [= _ <-]. cbn [module_map].
      destruct (decide (spec = k)) as [->|Hne].
      * right. rewrite lookup_insert_eq. congruence.
      * rewrite lookup_insert_ne by exact Hne. exact HP.
    + intros H.
      apply bind_inr in H as (env & st1 & Hlink & H).
      apply bind_inr in H as (env1 & st2 & Hbody & H).
      apply bind_inr in H as (ns1 & st3 & Hlift & Hreg).
      unfold register in Hreg. injection Hreg as _ <-. cbn [module_map].
      assert (st3 = st2) as ->.
      { unfold lift in Hlift. destruct build_exports; [discriminate|].
        injection Hlift as _ <-. reflexivity. }
      rewrite lookup_insert_ne by congruence.
      rewrite (run_body_module_map _ _ _ _ _ _ Hbody).
      refine (link_imports_inv
        (λ s, module_map s !! k = None ∨ module_map s !! k = Some nk)
        (import fuel) _ _ _ _ _ _ HP Hlink).
      intros s sa nsa sb. apply IH.
Qed.

(** What the host has for a module does not change while other modules
    are imported. *)
Lemma provided_preserved fuel s st ns st' k n :
  provided registry st k = Some n →
  import fuel s st = inr (ns, st') →
  provided registry st' k = Some n.
Proof.
  unfold provided. intros Hp Himp.
  destruct (module_map st !! k) as [n0|] eqn:Hc.
  - injection Hp as ->.
    rewrite (import_module_stable _ _ _ _ _ _ _ _ _ Hc Himp). reflexivity.
  - destruct (registry !! k) as [[nx init|m]|] eqn:Hr; try discriminate.
    injection Hp as ->.
    destruct (import_module_external_consistent _ _ _ Hr _ _ _ _ _
                (or_introl Hc) Himp) as [-> | ->]; reflexivity.
Qed.

Lemma lacks_default_preserved fuel s st ns st' k :
  lacks_default registry st k →
  import fuel s st = inr (ns, st') →
  lacks_default registry st' k.
Proof.
  intros (n & Hp & Hd) Himp. exists n. split; [|exact Hd].
  eapply provided_preserved; eauto.
Qed.

(** A default import from a module that has no default export fails. *)
Lemma resolve_defaultless fuel st spec x env :
  lacks_default registry st spec →
  resolve_import (import fuel) (ImportEntry spec "default" x) env st
  = inl (ExportNotFound spec "default").
Proof.
  intros (n & Hp & Hd). unfold resolve_import, bind.
  cbn [module_request import_name local_name].
  rewrite (import_provided _ _ _ _ Hp), Hd. reflexivity.
Qed.

(** Linking stops at the first default import from a module without a
    default export when the modules requested before it are at hand with
    one. *)
Lemma link_imports_first_defaultless fuel spec x pre post :
  ∀ env st,
    lacks_default registry st spec →
    Forall (λ i, import_name i = "default" ∧
                 available registry st (module_request i)) pre →
    link_imports (import fuel) (pre ++ ImportEntry spec "default" x :: post) env st
    = inl (ExportNotFound spec "default").
Proof.
  induction pre as [|i pre IH]; intros env st Hlack Hpre.
  - cbn [app link_imports]. apply bind_inl, resolve_defaultless, Hlack.
  - apply Forall_cons in Hpre as [[Hname Hav] Hpre].
    destruct (available_import fuel _ _ Hav) as (ns & st' & Himp & Hdef & Hmap).
    cbn [app link_imports]. unfold bind at 1. unfold resolve_import, bind.
    rewrite Himp, Hname. destruct Hdef as [r Hr]. rewrite Hr. cbn [ret].
    apply IH.
    + eapply lacks_default_preserved; eauto.
    + eapply Forall_impl; [exact Hpre|]. cbn. intros j [Hj Haj].
      split; [exact Hj|].
      eapply available_preserved; [|exact Hmap|exact Haj]. eauto.
Qed.

(** The aggregator does not load while one of the modules it requests
    has no default export. *)
Lemma aggregator_needs_defaults fuel st spec ns st' :
  module_map st !! agg = None →
  spec ∈ mixin_requests →
  lacks_default registry st spec →
  import fuel agg st ≠ inr (ns, st').
Proof.
  intros Hfresh Hin Hlack Himp.
  destruct fuel as [|fuel].
  { cbn [import_module] in Himp. rewrite Hfresh, Hagg in Himp. discriminate. }
  apply aggregator_import in Himp
    as (nd & nb & nv & nc & st1 & st2 & st3 & st4 & rd & rb & rs & rc
        & H1 & H2 & H3 & H4 & Dd & Db & Dv & Dc & _); [|exact Hfresh].
  pose proof (lacks_default_preserved _ _ _ _ _ _ Hlack H1) as L1.
  pose proof (lacks_default_preserved _ _ _ _ _ _ L1 H2) as L2.
  pose proof (lacks_default_preserved _ _ _ _ _ _ L2 H3) as L3.
  unfold mixin_requests in Hin. rewrite !elem_of_cons, elem_of_nil in Hin.
  destruct Hin as [->|[->|[->|[->|[]]]]].
  - destruct Hlack as (n & Hp & Hd).
    rewrite (import_provided _ _ _ _ Hp) in H1. congruence.
  - destruct L1 as (n & Hp & Hd).
    rewrite (import_provided _ _ _ _ Hp) in H2. congruence.
  - destruct L2 as (n & Hp & Hd).
    rewrite (import_provided _ _ _ _ Hp) in H3. congruence.
  - destruct L3 as (n & Hp & Hd).
    rewrite (import_provided _ _ _ _ Hp) in H4. congruence.
Qed.

(** While the aggregator cannot load, which is what an invariant [I] of
    the imports says, no import brings it into the module map. *)
Lemma aggregator_kept_out (I : loader_state World → Prop) :
  (∀ fuel s st ns st', I st → import fuel s st = inr (ns, st') → I st') →
  (∀ fuel st ns st', I st → module_map st !! agg = None →
                     import fuel agg st ≠ inr (ns, st')) →
  ∀ fuel target st ns st',
    I st → module_map st !! agg = None →
    import fuel target st = inr (ns, st') →
    module_map st' !! agg = None.
Proof.
  intros Hkeep Hno fuel.
  induction fuel as [|fuel IH]; intros target st ns st' HI Hfresh Himp.
  - cbn [import_module] in Himp.
    destruct (module_map st !! target) as [n0|] eqn:Hc.
    { injection Himp as _ <-. exact Hfresh. }
    destruct (registry !! target) as [[nx init|m]|] eqn:Hr; [|discriminate..].
    injection Himp as _ <-. cbn [module_map].
    rewrite lookup_insert_ne; [exact Hfresh|]. congruence.
  - destruct (decide (target = agg)) as [->|Hne].
    { exfalso. eapply Hno; eauto. }
    cbn [import_module] in Himp.
    destruct (module_map st !! target) as [n0|] eqn:Hc.
    { injection Himp as _ <-. exact Hfresh. }
    destruct (registry !! target) as [[nx init|m]|] eqn:Hr; [| |discriminate].
    + injection Himp as _ <-. cbn [module_map].
      rewrite lookup_insert_ne; [exact Hfresh|]. congruence.
    + apply bind_inr in Himp as (env & st1 & Hlink & H).
      apply bind_inr in H as (env1 & st2 & Hbody & H).
      apply bind_inr in H as (ns1 & st3 & Hlift & Hreg).
      unfold register in Hreg. injection Hreg as _ <-. cbn [module_map].
      assert (st3 = st2) as ->.
      { unfold lift in Hlift. destruct build_exports; [discriminate|].
        injection Hlift as _ <-. reflexivity. }
      rewrite lookup_insert_ne by congruence.
      rewrite (run_body_module_map _ _ _ _ _ _ Hbody).
      refine (proj2 (link_imports_inv
        (λ s, I s ∧ module_map s !! agg = None)
        (import fuel) _ _ _ _ _ _ (conj HI Hfresh) Hlink)).
      intros s sa nsa sb [Hi Hf] Hl. split.
      * eapply Hkeep; eauto.
      * eapply IH; eauto.
Qed.

(** X2.  When one of the four mixin modules is at hand but has no default
    export, the aggregator does not load, whatever the fuel and whatever
    the other three modules are; when the other three are at hand with a
    default export, the error is [ExportNotFound] for the default export
    of that module; and every module that imports from the aggregator
    fails to load as well. *)
Theorem aggregator_fails_without_default fuel st spec :
  module_map st !! agg = None →
  spec ∈ mixin_requests →
  lacks_default registry st spec →
  (∃ e, import fuel agg st = inl e) ∧
  ((∀ s, s ∈ mixin_requests → s ≠ spec → available registry st s) →
   fuel ≠ 0 →
   import fuel agg st = inl (ExportNotFound spec "default")) ∧
  (∀ cspec c,
     registry !! cspec = Some (Source c) →
     module_map st !! cspec = None →
     (∃ ie, ie ∈ import_entries c ∧ module_request ie = agg) →
     ∃ e, import fuel cspec st = inl e).
Proof.
  intros Hfresh Hin Hlack. split; [|split].
  - apply not_inr_inl. intros [ns st'].
    eapply aggregator_needs_defaults; eauto.
  - intros Hothers Hfuel.
    destruct fuel as [|fuel]; [congruence|].
    cbn [import_module]. rewrite Hfresh, Hagg. apply bind_inl.
    cbn [IndexJs.index_js import_entries].
    assert (Hav : ∀ s, s ∈ mixin_requests → s ≠ spec →
              "default" = "default" ∧ available registry st s)
      by (intros s Hs Hne; split; [reflexivity|auto]).
    unfold mixin_requests in Hin, Hav.
    rewrite !elem_of_cons, elem_of_nil in Hin.
    destruct Hin as [->|[->|[->|[->|[]]]]].
    + apply (link_imports_first_defaultless fuel _ _ []); [exact Hlack|].
      constructor.
    + apply (link_imports_first_defaultless fuel _ _ [_]); [exact Hlack|].
      repeat (apply Forall_cons; split;
        [apply Hav; [rewrite !elem_of_cons; auto 10|discriminate]|]);
      constructor.
    + apply (link_imports_first_defaultless fuel _ _ [_; _]); [exact Hlack|].
      repeat (apply Forall_cons; split;
        [apply Hav; [rewrite !elem_of_cons; auto 10|discriminate]|]);
      constructor.
    + apply (link_imports_first_defaultless fuel _ _ [_; _; _]); [exact Hlack|].
      repeat (apply Forall_cons; split;
        [apply Hav; [rewrite !elem_of_cons; auto 10|discriminate]|]);
      constructor.
  - intros cspec c Hc Hcfresh Hdep.
    destruct fuel as [|fuel]; cbn [import_module]; rewrite Hcfresh, Hc.
    { eauto. }
    pose (I := λ s : loader_state World, lacks_default registry s spec).
    assert (Hkeep : ∀ f s sa nsa sb, I sa → import f s sa = inr (nsa, sb) → I sb)
      by (intros f s sa nsa sb Hi Hl; eapply lacks_default_preserved; eauto).
    assert (Hno : ∀ f sa nsa sb, I sa → module_map sa !! agg = None →
                    import f agg sa ≠ inr (nsa, sb))
      by (intros f sa nsa sb Hi Hf; eapply aggregator_needs_defaults; eauto).
    destruct (link_imports_blocked
                (λ s, I s ∧ module_map s !! agg = None)
                (import fuel) agg) with (ies := import_entries c)
                (env := (∅ : namespace)) (st := st) as [e He].
    + intros s sa nsa sb [Hi Hf] Hl. split.
      * eapply Hkeep; eauto.
      * eapply (aggregator_kept_out I Hkeep Hno); eauto.
    + intros sa [Hi Hf]. apply not_inr_inl. intros [nsa sb].
      eapply Hno; eauto.
    + exact Hdep.
    + split; assumption.
    + exists e. apply bind_inl, He.
Qed.

(** *** Consumers of a loaded module *)




(** X5.  The cost of the single import path.  From a state in which the
    aggregator is not loaded and the four mixin modules are at hand,
    importing one name from the aggregator and importing the default
    export of its module directly bind the same reference; the first
    runs the pending initialisation of all four modules, the second only
    that of the one module. *)
Theorem barrel_import_initialises_all fuel st name spec x env :
  module_map st !! agg = None →
  (∀ s, s ∈ mixin_requests → available registry st s) →
  (name, spec) ∈ underlying →
  ∃ r sta std,
    resolve_import (import (S fuel)) (ImportEntry agg name x) env st
      = inr (<[x := r]> env, sta) ∧
    world sta
      = foldl (λ w s, pending_init registry st s w) (world st) mixin_requests ∧
    (∀ s, s ∈ mixin_requests → is_Some (module_map sta !! s)) ∧
    resolve_import (import (S fuel)) (ImportEntry spec "default" x) env st
      = inr (<[x := r]> env, std) ∧
    world std = pending_init registry st spec (world st) ∧
    (∀ s, s ≠ spec → module_map std !! s = module_map st !! s).
Proof.
  intros Hfresh Hav Hin.
  destruct (aggregator_available_load fuel st Hfresh Hav)
    as (nd & nb & nv & nc & rd & rb & rs & rc & Pd & Pb & Pv & Pc
        & Dd & Db & Dv & Dc & Himp).
  assert (Hall : ∀ sta, import (S fuel) agg st
                        = inr (export_table rb rd rs rc, sta) →
            ∀ s, s ∈ mixin_requests → is_Some (module_map sta !! s)).
  { intros sta Hsta s Hs.
    destruct (aggregator_loaded _ _ _ _ Hfresh Hsta)
      as (? & ? & ? & ? & ? & ? & ? & ? & _ & _ & Md & Mb & Mv & Mc & _).
    unfold mixin_requests in Hs. rewrite !elem_of_cons, elem_of_nil in Hs.
    destruct Hs as [->|[->|[->|[->|[]]]]]; eauto. }
  assert (Hdirect : ∀ s n r, provided registry st s = Some n →
            n !! "default" = Some r →
            resolve_import (import (S fuel)) (ImportEntry s "default" x) env st
            = inr (<[x := r]> env,
                   LoaderState (<[s := n]> (module_map st))
                               (pending_init registry st s (world st)))).
  { intros s n r Hp Hr. unfold resolve_import, bind.
    cbn [module_request import_name local_name].
    rewrite (import_provided _ _ _ _ Hp), Hr. reflexivity. }
  assert (Hvia : ∀ r, export_table rb rd rs rc !! name = Some r →
            ∃ sta, resolve_import (import (S fuel)) (ImportEntry agg name x) env st
                   = inr (<[x := r]> env, sta) ∧
                   world sta = foldl (λ w s, pending_init registry st s w)
                                     (world st) mixin_requests ∧
                   ∀ s, s ∈ mixin_requests → is_Some (module_map sta !! s)).
  { intros r Hr. eexists. unfold resolve_import, bind.
    cbn [module_request import_name local_name].
    rewrite Himp, Hr. split; [reflexivity|]. split; [reflexivity|].
    apply Hall. exact Himp. }
  unfold underlying in Hin. rewrite !elem_of_cons, elem_of_nil in Hin.
  destruct Hin as [[= -> ->]|[[= -> ->]|[[= -> ->]|[[= -> ->]|[]]]]].
  - destruct (Hvia rb eq_refl) as (sta & Ha & Hw & Hm).
    exists rb, sta. eexists. split; [exact Ha|]. split; [exact Hw|].
    split; [exact Hm|]. split; [exact (Hdirect _ _ _ Pb Db)|].
    split; [reflexivity|]. intros s Hs. cbn. apply lookup_insert_ne. congruence.
  - destruct (Hvia rd eq_refl) as (sta & Ha & Hw & Hm).
    exists rd, sta. eexists. split; [exact Ha|]. split; [exact Hw|].
    split; [exact Hm|]. split; [exact (Hdirect _ _ _ Pd Dd)|].
    split; [reflexivity|]. intros s Hs. cbn. apply lookup_insert_ne. congruence.
  - destruct (Hvia rs eq_refl) as (sta & Ha & Hw & Hm).
    exists rs, sta. eexists. split; [exact Ha|]. split; [exact Hw|].
    split; [exact Hm|]. split; [exact (Hdirect _ _ _ Pv Dv)|].
    split; [reflexivity|]. intros s Hs. cbn. apply lookup_insert_ne. congruence.
  - destruct (Hvia rc eq_refl) as (sta & Ha & Hw & Hm).
    exists rc, sta. eexists. split; [exact Ha|]. split; [exact Hw|].
    split; [exact Hm|]. split; [exact (Hdirect _ _ _ Pc Dc)|].
    split; [reflexivity|]. intros s Hs. cbn. apply lookup_insert_ne. congruence.
Qed.

End Aggregator.

(** ** The aggregator in the concrete process *)

Example demo_first_import :
  import_module Demo.exec Demo.registry 1 Demo.agg Demo.st0
  = inr (Demo.ns, Demo.st1).
Proof. vm_compute. reflexivity. Qed.

Example demo_consumer :
  world <$> (snd <$> (sum_rect (λ _, option _) (λ _, None) Some
    (import_module Demo.exec Demo.registry 2 "@/views/report" Demo.st0)))
  = Some ["detection-status"; "bug-path-length-color"; "severity";
          "str-to-color"; "consumer"].
Proof. vm_compute. reflexivity. Qed.

Example demo_broken :
  import_module Demo.exec Demo.broken_registry 1 Demo.agg Demo.st0
  = inl (ModuleNotFound "./severity.mixin").
Proof. vm_compute. reflexivity. Qed.

(** ** The theorems at the concrete process *)

Ltac demo_fact :=
  first [ reflexivity
        | vm_compute; reflexivity
        | refine (bool_decide_unpack _ _); vm_compute; exact I ].

(** C1 at the concrete process: [SeverityMixin] read through the
    aggregator and the default export of [./severity.mixin]. *)
Lemma aggregator_identity_witness :
  ∃ r, Demo.ns !! "SeverityMixin" = Some r ∧
    ∀ ops fuel2 x env,
      let st2 := run Demo.exec Demo.registry ops Demo.st1 in
      resolve_import (import_module Demo.exec Demo.registry fuel2)
        (ImportEntry Demo.agg "SeverityMixin" x) env st2
        = inr (<[x := r]> env, st2) ∧
      resolve_import (import_module Demo.exec Demo.registry fuel2)
        (ImportEntry "./severity.mixin" "default" x) env st2
        = inr (<[x := r]> env, st2).
Proof.
  apply (aggregator_identity Demo.exec Demo.registry Demo.agg)
    with (fuel := 1) (st := Demo.st0); demo_fact.
Defined.

Lemma aggregator_exports_four_witness :
  dom Demo.ns = list_to_set mixin_names ∧
  size Demo.ns = 4 ∧
  export_name <$> export_entries (@IndexJs.index_js Demo.stmt) = mixin_names.
Proof.
  apply (aggregator_exports_four Demo.exec Demo.registry Demo.agg)
    with (fuel := 1) (st := Demo.st0) (st' := Demo.st1); demo_fact.
Defined.

Lemma exports_resolve_to_one_definition_witness :
  ∃ ie,
    ie ∈ import_entries (@IndexJs.index_js Demo.stmt) ∧
    local_name ie = "SeverityMixin" ∧
    (∀ ie', ie' ∈ import_entries (@IndexJs.index_js Demo.stmt) →
            local_name ie' = "SeverityMixin" → ie' = ie) ∧
    import_name ie = "default" ∧
    ("SeverityMixin", module_request ie) ∈ underlying ∧
    ∃ nsd r, module_map Demo.st1 !! module_request ie = Some nsd ∧
             nsd !! "default" = Some r ∧
             Demo.ns !! "SeverityMixin" = Some r.
Proof.
  refine (proj1 (proj2
    (exports_resolve_to_one_definition Demo.exec Demo.registry Demo.agg _ _
       1 Demo.st0 Demo.ns Demo.st1 (ExportEntry "SeverityMixin" "SeverityMixin")
       _ _ _))); demo_fact.
Defined.

(** C4 at the host that lacks the severity mixin: the aggregator fails
    with the resolution error for that module, and so does the consumer. *)
Lemma aggregator_all_or_nothing_witness :
  import_module Demo.exec Demo.broken_registry 1 Demo.agg Demo.st0
    = inl (ModuleNotFound "./severity.mixin") ∧
  ∃ e, import_module Demo.exec Demo.broken_registry 1 "@/views/report" Demo.st0
       = inl e.
Proof.
  destruct (aggregator_all_or_nothing Demo.exec Demo.broken_registry Demo.agg
              ltac:(demo_fact) ltac:(demo_fact) 1 Demo.st0 ltac:(demo_fact))
    as [_ Hmissing].
  destruct (Hmissing "./severity.mixin" ltac:(demo_fact)
              ltac:(split; demo_fact)) as (_ & Herror & Hconsumer).
  split.
  - apply Herror; [|discriminate].
    intros s Hs Hne. unfold mixin_requests in Hs.
    rewrite !elem_of_cons, elem_of_nil in Hs.
    destruct Hs as [->|[->|[->|[->|[]]]]]; [| |congruence|].
    + exists {[ "default" := 11%positive ]}. split; [eexists; demo_fact|].
      right. split; [demo_fact|]. eexists. demo_fact.
    + exists {[ "default" := 12%positive ]}. split; [eexists; demo_fact|].
      right. split; [demo_fact|]. eexists. demo_fact.
    + exists {[ "default" := 14%positive ]}. split; [eexists; demo_fact|].
      right. split; [demo_fact|]. eexists. demo_fact.
  - apply (Hconsumer "@/views/report" Demo.consumer); [demo_fact..|].
    eexists. split; [apply list_elem_of_here|reflexivity].
Defined.

Lemma aggregator_resolves_only_four_witness :
  is_Some (Demo.ns !! "Severity") ↔ "Severity" ∈ mixin_names.
Proof.
  exact (proj1 (aggregator_resolves_only_four Demo.exec Demo.registry Demo.agg
    ltac:(demo_fact) ltac:(demo_fact) 1 Demo.st0 Demo.ns Demo.st1 "Severity"
    ltac:(demo_fact) ltac:(demo_fact))).
Defined.

Lemma aggregator_no_default_export_witness :
  Demo.ns !! "default" = None.
Proof.
  exact (proj1 (proj2 (aggregator_no_default_export Demo.exec Demo.registry
    Demo.agg ltac:(demo_fact) ltac:(demo_fact) 1 Demo.st0 Demo.ns Demo.st1
    ltac:(demo_fact) ltac:(demo_fact)))).
Defined.

Lemma aggregator_reimport_idempotent_witness :
  import_all (import_module Demo.exec Demo.registry 0)
             (replicate 3 Demo.agg)
             (run Demo.exec Demo.registry [OpImport 2 "@/views/report"] Demo.st1)
  = inr (replicate 3 Demo.ns,
         run Demo.exec Demo.registry [OpImport 2 "@/views/report"] Demo.st1).
Proof.
  exact (proj1 (proj2 (proj2
    (aggregator_reimport_idempotent Demo.exec Demo.registry Demo.agg
       ltac:(demo_fact) ltac:(demo_fact) 1 Demo.st0 Demo.ns Demo.st1
       ltac:(demo_fact) ltac:(demo_fact)
       [] [OpImport 2 "@/views/report"] 0 0 3)))).
Defined.

Lemma aggregator_table_immutable_witness :
  module_map (run Demo.exec Demo.registry
                  [OpImport 2 "@/views/report";
                   OpResolve 0 (ImportEntry Demo.agg "Nothing" "x")]
                  Demo.st1) !! Demo.agg
  = Some Demo.ns.
Proof.
  exact (proj1 (aggregator_table_immutable Demo.exec Demo.registry Demo.agg
    ltac:(demo_fact) ltac:(demo_fact) 1 Demo.st0 Demo.ns Demo.st1
    [OpImport 2 "@/views/report";
     OpResolve 0 (ImportEntry Demo.agg "Nothing" "x")]
    ltac:(demo_fact) ltac:(demo_fact))).
Defined.

Lemma aggregator_effects_witness :
  ∃ nss st4,
    import_all (import_module Demo.exec Demo.registry 0) mixin_requests Demo.st0
      = inr (nss, st4) ∧
    world Demo.st1 = world st4 ∧
    module_map Demo.st1 = <[Demo.agg := Demo.ns]> (module_map st4).
Proof.
  exact (proj1 (proj2 (aggregator_effects Demo.exec Demo.registry Demo.agg
    ltac:(demo_fact) 1 Demo.st0 Demo.ns Demo.st1
    ltac:(demo_fact) ltac:(demo_fact)))).
Defined.

(** ** The further properties at the concrete processes *)

Lemma demo_available (st : loader_state (list string)) :
  (∀ s, s ∈ mixin_requests →
        ∃ ns, provided Demo.registry st s = Some ns ∧ is_Some (ns !! "default")) →
  ∀ s, s ∈ mixin_requests → available Demo.registry st s.
Proof. intros H s Hs. apply available_provided, H, Hs. Qed.

Ltac demo_provided :=
  let s := fresh "s" in
  let Hs := fresh "Hs" in
  intros s Hs; unfold mixin_requests in Hs;
  rewrite !elem_of_cons, elem_of_nil in Hs;
  destruct Hs as [->|[->|[->|[->|[]]]]];
  (eexists; split; [vm_compute; reflexivity|eexists; vm_compute; reflexivity]).

Lemma aggregator_loads_when_available_witness :
  ∃ ns st',
    import_module Demo.exec Demo.registry 1 Demo.agg Demo.st0 = inr (ns, st') ∧
    (∀ name spec, (name, spec) ∈ underlying →
       is_Some (ns !! name) ∧
       ns !! name = provided Demo.registry Demo.st0 spec ≫= (λ t, t !! "default")) ∧
    module_map st'
    = <[Demo.agg := ns]>
        (foldl (λ m s, match provided Demo.registry Demo.st0 s with
                       | Some n => <[s := n]> m
                       | None => m
                       end) (module_map Demo.st0) mixin_requests).
Proof.
  apply (aggregator_loads_when_available Demo.exec Demo.registry Demo.agg
           ltac:(demo_fact) 0 Demo.st0 ltac:(demo_fact)).
  apply demo_available. demo_provided.
Defined.

(** X2 at the host whose severity module has no default export. *)
Lemma aggregator_fails_without_default_witness :
  import_module Demo.exec DemoEdge.defaultless_registry 1 Demo.agg Demo.st0
    = inl (ExportNotFound "./severity.mixin" "default") ∧
  ∃ e, import_module Demo.exec DemoEdge.defaultless_registry 1
                     "@/views/report" Demo.st0 = inl e.
Proof.
  destruct (aggregator_fails_without_default Demo.exec
              DemoEdge.defaultless_registry Demo.agg
              ltac:(demo_fact) 1 Demo.st0 "./severity.mixin"
              ltac:(demo_fact) ltac:(demo_fact))
    as (_ & Herror & Hconsumer).
  { exists {[ "helper" := 13%positive ]}. split; demo_fact. }
  split.
  - apply Herror; [|discriminate].
    intros s Hs Hne. apply available_provided.
    unfold mixin_requests in Hs. rewrite !elem_of_cons, elem_of_nil in Hs.
    destruct Hs as [->|[->|[->|[->|[]]]]]; [| |congruence|];
      (eexists; split; [vm_compute; reflexivity|eexists; vm_compute; reflexivity]).
  - apply (Hconsumer "@/views/report" Demo.consumer); [demo_fact..|].
    eexists. split; [apply list_elem_of_here|reflexivity].
Defined.

(** X3 at the process in which the severity mixin is already loaded: it
    is not initialised again, the other three are, in import order. *)
Lemma aggregator_initialisation_order_witness :
  world DemoEdge.st_after
  = foldl (λ w s, pending_init Demo.registry DemoEdge.st_severity_loaded s w)
          (world DemoEdge.st_severity_loaded) mixin_requests.
Proof.
  refine (proj1 (aggregator_initialisation_order Demo.exec Demo.registry Demo.agg
    ltac:(demo_fact) 1 DemoEdge.st_severity_loaded Demo.ns DemoEdge.st_after
    ltac:(demo_fact) _ ltac:(demo_fact))).
  apply demo_available. demo_provided.
Defined.


Lemma barrel_import_initialises_all_witness :
  ∃ r sta std,
    resolve_import (import_module Demo.exec Demo.registry 1)
      (ImportEntry Demo.agg "SeverityMixin" "sev") ∅ Demo.st0
      = inr (<["sev" := r]> ∅, sta) ∧
    world sta
      = foldl (λ w s, pending_init Demo.registry Demo.st0 s w)
              (world Demo.st0) mixin_requests ∧
    (∀ s, s ∈ mixin_requests → is_Some (module_map sta !! s)) ∧
    resolve_import (import_module Demo.exec Demo.registry 1)
      (ImportEntry "./severity.mixin" "default" "sev") ∅ Demo.st0
      = inr (<["sev" := r]> ∅, std) ∧
    world std = pending_init Demo.registry Demo.st0 "./severity.mixin"
                             (world Demo.st0) ∧
    (∀ s, s ≠ "./severity.mixin" →
          module_map std !! s = module_map Demo.st0 !! s).
Proof.
  apply (barrel_import_initialises_all Demo.exec Demo.registry Demo.agg
           ltac:(demo_fact) ltac:(demo_fact) 0 Demo.st0
           "SeverityMixin" "./severity.mixin" "sev" ∅ ltac:(demo_fact)).
  - apply demo_available. demo_provided.
  - demo_fact.
Defined.

Example demo_initialisation_order :
  foldl (λ w s, pending_init Demo.registry DemoEdge.st_severity_loaded s w)
        (world DemoEdge.st_severity_loaded) mixin_requests
  = ["severity"; "detection-status"; "bug-path-length-color"; "str-to-color"].
Proof. vm_compute. reflexivity. Qed.
